(** * ldrb: rule-based fiber, sheet and sheet-normal frames

    A shallow embedding of the geometric core of [ldrb/ldrb.py]:
    [normalize], [axis], [orient], [bislerp], [standard_dofs],
    [system_at_dof] and [compute_fiber_sheet_system].

    Numbers.  Python and NumPy floats are read as real numbers ([R]): the
    decimal literals of the source ([1e-3], [1e-7], [1e-12], [0.5]) denote
    the corresponding rationals, [+ - * /] are exact, comparisons are the
    order of [R], and there is no NaN, no infinity and no signed zero.
    A statement below is therefore a statement about the algorithm in exact
    arithmetic.  Division of a Python float by zero raises
    [ZeroDivisionError]; it is modelled in [py_truediv].  Division of a NumPy
    array by a zero norm does not raise (NumPy yields NaN or infinity); in
    the model [x / 0] is the real number [0].

    Exceptions.  The model has [IndexError] and [ZeroDivisionError].
    Non-finite values are outside it: where NumPy goes on with NaN after a
    zero norm, [quaternion.from_rotation_matrix] raises [ValueError] once
    [bislerp] hands it such a frame, and the model has no counterpart of
    that.  The statements below about exceptions are about these two.

    Arrays.  A one-dimensional [np.ndarray] of floats is a [list R]; reading
    or writing past its end raises [IndexError].  Indices are natural numbers,
    so NumPy's wrap-around of negative indices is outside the model.

    External libraries.  [np.cos], [np.sin], [np.radians], [np.cross],
    [np.dot] and [np.linalg.norm] are the mathematical functions.  The root
    finder [scipy.optimize.root] and the functions of the [quaternion] package
    that convert, interpolate and normalise are parameters of the model
    ([Solver], [QuaternionLib]); what is assumed of them, where anything is,
    is the explicit [quaternion_contract].  Logging ([df.info]) has no effect
    on the result and is left out. *)

From Stdlib Require Import Reals Lra Psatz Lia List Arith ClassicalEpsilon.
From Stdlib Require Import FunctionalExtensionality.
From Stdlib Require Strings.String FinFun.
Import ListNotations.
Local Open Scope R_scope.

(** ** Exceptions and fallible computations *)

Inductive exn : Type :=
| IndexError
| ZeroDivisionError.

Inductive outcome (A : Type) : Type :=
| Ok (a : A)
| Raise (e : exn).

Arguments Ok {A} a.
Arguments Raise {A} e.

Definition bind {A B : Type} (m : outcome A) (k : A -> outcome B) : outcome B :=
  match m with
  | Ok a => k a
  | Raise e => Raise e
  end.

Notation "x <- m ;; k" := (bind m (fun x => k))
  (at level 61, m at next level, right associativity).

(** A [for] loop whose body may raise: the first exception ends the loop. *)
Fixpoint for_each {S D : Type} (body : S -> D -> outcome S)
         (ds : list D) (st : S) : outcome S :=
  match ds with
  | [] => Ok st
  | d :: ds' => st' <- body st d ;; for_each body ds' st'
  end.

(** ** Comparisons and division of floats *)

Definition Rltb (a b : R) : bool := if Rlt_dec a b then true else false.
Definition Rgtb (a b : R) : bool := Rltb b a.

(** [a / b] on Python floats: a zero divisor raises.  (A NumPy scalar divided
    by zero gives nan or an infinity with a warning instead.) *)
Definition py_truediv (a b : R) : outcome R :=
  if Req_dec_T b 0 then Raise ZeroDivisionError else Ok (a / b).

(** [x or y] for [x : Optional[float]]: [None] and zero are falsy. *)
Definition py_or (x : option R) (y : R) : R :=
  match x with
  | None => y
  | Some v => if Req_dec_T v 0 then y else v
  end.

(** ** Vectors and 3x3 matrices *)

Record vec : Type := mkvec { vx : R; vy : R; vz : R }.

Definition vzero : vec := mkvec 0 0 0.
Definition vsub (u v : vec) : vec := mkvec (vx u - vx v) (vy u - vy v) (vz u - vz v).
Definition vscale (c : R) (u : vec) : vec := mkvec (c * vx u) (c * vy u) (c * vz u).
Definition vdiv (u : vec) (c : R) : vec := mkvec (vx u / c) (vy u / c) (vz u / c).
Definition vdot (u v : vec) : R := vx u * vx v + vy u * vy v + vz u * vz v.

(** [np.cross] *)
Definition cross (u v : vec) : vec :=
  mkvec (vy u * vz v - vz u * vy v)
        (vz u * vx v - vx u * vz v)
        (vx u * vy v - vy u * vx v).

(** [np.linalg.norm] *)
Definition norm (u : vec) : R := sqrt (vdot u u).

Definition normalize (u : vec) : vec := vdiv u (norm u).

(** A matrix is stored by rows, as [np.array([r0, r1, r2])]. *)
Record mat : Type := mkmat { row0 : vec; row1 : vec; row2 : vec }.

Definition transpose (M : mat) : mat :=
  mkmat (mkvec (vx (row0 M)) (vx (row1 M)) (vx (row2 M)))
        (mkvec (vy (row0 M)) (vy (row1 M)) (vy (row2 M)))
        (mkvec (vz (row0 M)) (vz (row1 M)) (vz (row2 M))).

Definition col0 (M : mat) : vec := row0 (transpose M).
Definition col1 (M : mat) : vec := row1 (transpose M).
Definition col2 (M : mat) : vec := row2 (transpose M).

(** [np.dot] of two matrices *)
Definition matmul (A B : mat) : mat :=
  let r := fun a => mkvec (vdot a (col0 B)) (vdot a (col1 B)) (vdot a (col2 B)) in
  mkmat (r (row0 A)) (r (row1 A)) (r (row2 A)).

Definition identity : mat := mkmat (mkvec 1 0 0) (mkvec 0 1 0) (mkvec 0 0 1).

(** The largest entry of [|Q^T Q - I|]: how far the columns of [Q] are from an
    orthonormal triple. *)
Definition gram_defect (Q : mat) : R :=
  let G := matmul (transpose Q) Q in
  let d := fun (g i : vec) =>
    Rmax (Rabs (vx g - vx i)) (Rmax (Rabs (vy g - vy i)) (Rabs (vz g - vz i))) in
  Rmax (d (row0 G) (row0 identity))
       (Rmax (d (row1 G) (row1 identity)) (d (row2 G) (row2 identity))).

(** ** Quaternions *)

(** [quaternion.quaternion(w, x, y, z)] *)
Record quat : Type := mkquat { qw : R; qx : R; qy : R; qz : R }.

Definition quat_i : quat := mkquat 0 1 0 0.
Definition quat_j : quat := mkquat 0 0 1 0.
Definition quat_k : quat := mkquat 0 0 0 1.

Definition qneg (q : quat) : quat := mkquat (- qw q) (- qx q) (- qy q) (- qz q).

(** The Hamilton product [p * q]. *)
Definition qmul (p q : quat) : quat :=
  mkquat (qw p * qw q - qx p * qx q - qy p * qy q - qz p * qz q)
         (qw p * qx q + qx p * qw q + qy p * qz q - qz p * qy q)
         (qw p * qy q - qx p * qz q + qy p * qw q + qz p * qx q)
         (qw p * qz q + qx p * qy q - qy p * qx q + qz p * qw q).

Definition qadd (p q : quat) : quat :=
  mkquat (qw p + qw q) (qx p + qx q) (qy p + qy q) (qz p + qz q).
Definition qscale (c : R) (q : quat) : quat :=
  mkquat (c * qw q) (c * qx q) (c * qy q) (c * qz q).

(** The local [dot] of [bislerp]: the sum over the attributes x, y, z, w. *)
Definition dot (qi qj : quat) : R :=
  qx qi * qx qj + qy qi * qy qj + qz qi * qz qj + qw qi * qw qj.

Definition qunit (q : quat) : Prop := dot q q = 1.

(** The rotation matrix of a unit quaternion. *)
Definition rot_of (q : quat) : mat :=
  let w := qw q in let x := qx q in let y := qy q in let z := qz q in
  mkmat (mkvec (1 - 2 * (y * y + z * z)) (2 * (x * y - z * w)) (2 * (x * z + y * w)))
        (mkvec (2 * (x * y + z * w)) (1 - 2 * (x * x + z * z)) (2 * (y * z - x * w)))
        (mkvec (2 * (x * z - y * w)) (2 * (y * z + x * w)) (1 - 2 * (x * x + y * y))).

(** [np.argmax] of a non-empty list: the first index of the largest entry. *)
Fixpoint argmax_from (best_i : nat) (best : R) (i : nat) (l : list R) : nat :=
  match l with
  | [] => best_i
  | x :: l' =>
      if Rlt_dec best x then argmax_from i x (S i) l'
      else argmax_from best_i best (S i) l'
  end.

Definition argmax (l : list R) : nat :=
  match l with
  | [] => O
  | x :: l' => argmax_from O x 1%nat l'
  end.

(** ** The external numerical libraries *)

(** [scipy.optimize.root(f, x0).x] *)
Class Solver : Type := {
  optimize_root : (vec -> vec) -> vec -> vec
}.

(** The functions of the [quaternion] package used by [bislerp]. *)
Class QuaternionLib : Type := {
  from_rotation_matrix : mat -> quat;
  as_rotation_matrix : quat -> mat;
  slerp : quat -> quat -> R -> R -> R -> quat;
  normalized : quat -> quat
}.

(** What the package does on rotations: a rotation matrix is converted to a
    unit quaternion that represents it, a unit quaternion is converted to its
    rotation matrix, and normalising a unit quaternion changes nothing.
    [slerp] between two unit quaternions that are neither equal nor opposite
    takes the shorter arc: it starts at the first and ends at the second when
    their dot product is not negative (their distance is at most [sqrt 2]),
    and at the opposite of the second, which is the same rotation, when it is
    negative. *)
Record quaternion_contract (L : QuaternionLib) : Prop := {
  from_rotation_matrix_unit :
    forall q, qunit q -> qunit (from_rotation_matrix (rot_of q));
  from_rotation_matrix_repr :
    forall q, qunit q -> rot_of (from_rotation_matrix (rot_of q)) = rot_of q;
  as_rotation_matrix_unit :
    forall q, qunit q -> as_rotation_matrix q = rot_of q;
  slerp_start :
    forall q1 q2, qunit q1 -> qunit q2 -> Rabs (dot q1 q2) < 1 ->
    slerp q1 q2 0 1 0 = q1;
  slerp_end :
    forall q1 q2, qunit q1 -> qunit q2 -> 0 <= dot q1 q2 < 1 ->
    slerp q1 q2 0 1 1 = q2;
  slerp_end_opposite :
    forall q1 q2, qunit q1 -> qunit q2 -> -1 < dot q1 q2 < 0 ->
    slerp q1 q2 0 1 1 = qneg q2;
  normalized_unit :
    forall q, qunit q -> normalized q = q
}.

(** ** [axis], [orient], [bislerp] *)

Section Frames.

Context {slv : Solver} {qlib : QuaternionLib}.

(** The residual [f] of [axis], a closure over [e1] and [v]. *)
Definition axis_residual (e1 v e0 : vec) : vec :=
  let e2 := normalize (vsub v (vscale (vdot e0 v) e0)) in
  vsub e0 (cross e1 e2).

Definition axis (u v : vec) : mat :=
  let e1 := normalize u in
  (* Create an initial guess for e0 *)
  let e2 := normalize v in
  let e2 := vsub e2 (vscale (vdot e1 e2) e1) in
  let e2 := normalize e2 in
  let e0 := cross e1 e2 in
  let e0 := normalize e0 in
  let e0 := optimize_root (axis_residual e1 v) e0 in
  let e2 := normalize (vsub v (vscale (vdot e0 v) e0)) in
  transpose (mkmat e0 e1 e2).

Definition radians (deg : R) : R := deg * PI / 180.

Definition orient (Q : mat) (alpha beta : R) : mat :=
  let A := mkmat (mkvec (cos (radians alpha)) (- sin (radians alpha)) 0)
                 (mkvec (sin (radians alpha)) (cos (radians alpha)) 0)
                 (mkvec 0 0 1) in
  let B := mkmat (mkvec 1 0 0)
                 (mkvec 0 (cos (radians beta)) (sin (radians beta)))
                 (mkvec 0 (- sin (radians beta)) (cos (radians beta))) in
  matmul (matmul Q A) B.

Definition quat_array (qa : quat) : list quat :=
  [ qa;
    qneg qa;
    qmul qa quat_i;
    qmul (qneg qa) quat_i;
    qmul qa quat_j;
    qmul (qneg qa) quat_j;
    qmul qa quat_k;
    qmul (qneg qa) quat_k ].

Definition dot_arr (qa qb : quat) : list R :=
  map (fun qi => Rabs (dot qi qb)) (quat_array qa).

(** [max_dot] of [bislerp] for two present frames. *)
Definition max_dot (Qa Qb : mat) : R :=
  let qa := from_rotation_matrix Qa in
  let qb := from_rotation_matrix Qb in
  nth (argmax (dot_arr qa qb)) (dot_arr qa qb) 0.

Definition bislerp (Qa Qb : option mat) (t : R) : option mat :=
  match Qa, Qb with
  | None, None => None
  | None, Some _ => Qb
  | Some _, None => Qa
  | Some A, Some B =>
      let tol := 1e-12 in
      let qa := from_rotation_matrix A in
      let qb := from_rotation_matrix B in
      let max_idx := argmax (dot_arr qa qb) in
      let max_dot := nth max_idx (dot_arr qa qb) 0 in
      let qm := nth max_idx (quat_array qa) qa in
      if Rgtb max_dot (1 - tol) then Qb
      else
        let qm_slerp := slerp qm qb 0 1 t in
        let qm_norm := normalized qm_slerp in
        Some (as_rotation_matrix qm_norm)
  end.

(** ** [standard_dofs] *)

(** [np.arange(start, stop, step)] on non-negative integers; a zero step
    raises. *)
Definition arange (start stop step : nat) : outcome (list nat) :=
  if Nat.eqb step 0 then Raise ZeroDivisionError
  else Ok (map (fun i => (start + i * step)%nat)
               (seq 0 ((stop - start + (step - 1)) / step))).

(** One entry of the dof enumeration: [(x_dof, y_dof, z_dof, s_dof)]. *)
Definition dof : Type := (nat * nat * nat * nat)%type.

(** [zip] of four lists stops with the shortest. *)
Fixpoint zip4 (xs ys zs ss : list nat) : list dof :=
  match xs, ys, zs, ss with
  | x :: xs', y :: ys', z :: zs', s :: ss' => (x, y, z, s) :: zip4 xs' ys' zs' ss'
  | _, _, _, _ => []
  end.

Definition standard_dofs (n : nat) : outcome (list dof) :=
  x_dofs <- arange 0 (3 * n) n ;;
  y_dofs <- arange 1 (3 * n) n ;;
  z_dofs <- arange 2 (3 * n) n ;;
  scalar_dofs <- arange 0 n 1 ;;
  Ok (zip4 x_dofs y_dofs z_dofs scalar_dofs).

(** ** [system_at_dof] *)

(** The depth of [system_at_dof]. *)
Definition depth_at (lv rv tol : R) : outcome R :=
  if Rltb (lv + rv) tol then Ok 0.5
  else py_truediv rv (lv + rv).

Definition system_at_dof (lv rv epi : R) (grad_lv grad_rv grad_epi grad_ab : vec)
           (alpha_endo alpha_epi beta_endo beta_epi : R) (tol : R)
  : outcome (option mat) :=
  let alpha_s := fun d => alpha_endo * (1 - d) - alpha_endo * d in
  let alpha_w := fun d => alpha_endo * (1 - d) + alpha_epi * d in
  let beta_s := fun d => beta_endo * (1 - d) - beta_endo * d in
  let beta_w := fun d => beta_endo * (1 - d) + beta_epi * d in
  depth <- depth_at lv rv tol ;;
  let Q_lv :=
    if Rgtb lv tol
    then Some (orient (axis grad_ab (vscale (-1) grad_lv))
                      (alpha_s depth) (beta_s depth))
    else None in
  let Q_rv :=
    if Rgtb rv tol
    then Some (orient (axis grad_ab grad_rv) (alpha_s depth) (beta_s depth))
    else None in
  let Q_endo := bislerp Q_lv Q_rv depth in
  let Q_epi :=
    if Rgtb epi tol
    then Some (orient (axis grad_ab grad_epi) (alpha_w epi) (beta_w epi))
    else None in
  let Q_fiber := bislerp Q_endo Q_epi epi in
  Ok Q_fiber.

(** The default of the parameter [tol] of [system_at_dof]. *)
Definition system_at_dof_default_tol : R := 1e-7.

(** ** [compute_fiber_sheet_system] *)

(** The angle parameters as the caller passes them. *)
Record angle_args : Type := {
  alpha_endo_lv : R;
  alpha_epi_lv : R;
  alpha_endo_rv : option R;
  alpha_epi_rv : option R;
  alpha_endo_sept : option R;
  alpha_epi_sept : option R;
  beta_endo_lv : R;
  beta_epi_lv : R;
  beta_endo_rv : option R;
  beta_epi_rv : option R;
  beta_endo_sept : option R;
  beta_epi_sept : option R
}.

(** The defaults of the signature. *)
Definition default_angle_args : angle_args :=
  {| alpha_endo_lv := 40; alpha_epi_lv := -50;
     alpha_endo_rv := None; alpha_epi_rv := None;
     alpha_endo_sept := None; alpha_epi_sept := None;
     beta_endo_lv := -65; beta_epi_lv := 25;
     beta_endo_rv := None; beta_epi_rv := None;
     beta_endo_sept := None; beta_epi_sept := None |}.

(** The four angles used at one point. *)
Record angle_set : Type := {
  alpha_endo : R;
  alpha_epi : R;
  beta_endo : R;
  beta_epi : R
}.

(** The angles of the three regions after the [or] lines. *)
Record region_angles : Type := {
  lv_angles : angle_set;
  rv_angles : angle_set;
  sept_angles : angle_set
}.

Definition resolve_angles (a : angle_args) : region_angles :=
  {| lv_angles :=
       {| alpha_endo := alpha_endo_lv a;
          alpha_epi := alpha_epi_lv a;
          beta_endo := beta_endo_lv a;
          beta_epi := beta_epi_lv a |};
     rv_angles :=
       {| alpha_endo := py_or (alpha_endo_rv a) (alpha_endo_lv a);
          alpha_epi := py_or (alpha_epi_rv a) (alpha_epi_lv a);
          beta_endo := py_or (beta_endo_rv a) (beta_endo_lv a);
          beta_epi := py_or (beta_epi_rv a) (beta_epi_lv a) |};
     sept_angles :=
       {| alpha_endo := py_or (alpha_endo_sept a) (alpha_endo_lv a);
          alpha_epi := py_or (alpha_epi_sept a) (alpha_epi_lv a);
          beta_endo := py_or (beta_endo_sept a) (beta_epi_lv a);
          beta_epi := py_or (beta_epi_sept a) (beta_epi_lv a) |} |}.

(** The [if]/[elif] chain that picks the angles of a point. *)
Definition select_angles (A : region_angles) (lv rv tol : R) : angle_set :=
  if (Rgtb lv tol && Rltb rv tol)%bool then lv_angles A
  else if (Rltb lv tol && Rgtb rv tol)%bool then rv_angles A
  else if (Rgtb lv tol && Rgtb rv tol)%bool then sept_angles A
  else lv_angles A.

(** [a[i]] *)
Definition getitem (a : list R) (i : nat) : outcome R :=
  match nth_error a i with
  | Some v => Ok v
  | None => Raise IndexError
  end.

(** [a[np.array([x_dof, y_dof, z_dof])]] *)
Definition getitem3 (a : list R) (x_dof y_dof z_dof : nat) : outcome vec :=
  x <- getitem a x_dof ;;
  y <- getitem a y_dof ;;
  z <- getitem a z_dof ;;
  Ok (mkvec x y z).

Fixpoint set_nth (a : list R) (i : nat) (v : R) : outcome (list R) :=
  match a, i with
  | [], _ => Raise IndexError
  | _ :: a', O => Ok (v :: a')
  | x :: a', S i' => a'' <- set_nth a' i' v ;; Ok (x :: a'')
  end.

(** [a[np.array([x_dof, y_dof, z_dof])] = u] *)
Definition setitem3 (a : list R) (x_dof y_dof z_dof : nat) (u : vec)
  : outcome (list R) :=
  a <- set_nth a x_dof (vx u) ;;
  a <- set_nth a y_dof (vy u) ;;
  set_nth a z_dof (vz u).

(** [np.zeros_like] *)
Definition zeros_like (a : list R) : list R := repeat 0 (length a).

Record FiberSheetSystem : Type := {
  fiber : list R;
  sheet : list R;
  sheet_normal : list R
}.

(** The array arguments; [None] is an omitted optional argument. *)
Record field_args : Type := {
  lv_scalar : list R;
  lv_gradient : list R;
  epi_scalar : list R;
  epi_gradient : list R;
  apex_gradient : list R;
  dofs : option (list dof);
  rv_scalar : option (list R);
  rv_gradient : option (list R)
}.

Definition rv_scalar_of (F : field_args) : list R :=
  match rv_scalar F with
  | None => zeros_like (lv_scalar F)
  | Some a => a
  end.

Definition rv_gradient_of (F : field_args) : list R :=
  match rv_gradient F with
  | None => zeros_like (lv_gradient F)
  | Some a => a
  end.

(** The dof enumeration the loop runs over. *)
Definition dofs_of (F : field_args) : outcome (list dof) :=
  match dofs F with
  | None => standard_dofs (length (lv_scalar F))
  | Some ds => Ok ds
  end.

(** The tolerance [tol = 1e-3] of [compute_fiber_sheet_system]. *)
Definition classification_tol : R := 1e-3.

(** The end of the loop body: an absent frame is skipped ([continue]), a
    present one has its columns written at the vector dofs of the point. *)
Definition store_frame (st : FiberSheetSystem) (x_dof y_dof z_dof : nat)
           (Q_fiber : option mat) : outcome FiberSheetSystem :=
  match Q_fiber with
  | None => Ok st
  | Some Q =>
      f0 <- setitem3 (fiber st) x_dof y_dof z_dof (row0 (transpose Q)) ;;
      s0 <- setitem3 (sheet st) x_dof y_dof z_dof (row1 (transpose Q)) ;;
      n0 <- setitem3 (sheet_normal st) x_dof y_dof z_dof (row2 (transpose Q)) ;;
      Ok {| fiber := f0; sheet := s0; sheet_normal := n0 |}
  end.

(** The body of the loop over the dofs, on the arrays [(f0, s0, n0)]. *)
Definition dof_body (F : field_args) (A : region_angles)
           (st : FiberSheetSystem) (d : dof) : outcome FiberSheetSystem :=
  let '(x_dof, y_dof, z_dof, s_dof) := d in
  let tol := classification_tol in
  lv <- getitem (lv_scalar F) s_dof ;;
  rv <- getitem (rv_scalar_of F) s_dof ;;
  epi <- getitem (epi_scalar F) s_dof ;;
  grad_lv <- getitem3 (lv_gradient F) x_dof y_dof z_dof ;;
  grad_rv <- getitem3 (rv_gradient_of F) x_dof y_dof z_dof ;;
  grad_epi <- getitem3 (epi_gradient F) x_dof y_dof z_dof ;;
  grad_ab <- getitem3 (apex_gradient F) x_dof y_dof z_dof ;;
  let a := select_angles A lv rv tol in
  Q_fiber <- system_at_dof lv rv epi grad_lv grad_rv grad_epi grad_ab
               (alpha_endo a) (alpha_epi a) (beta_endo a) (beta_epi a) tol ;;
  store_frame st x_dof y_dof z_dof Q_fiber.

Definition compute_fiber_sheet_system (F : field_args) (a : angle_args)
  : outcome FiberSheetSystem :=
  ds <- dofs_of F ;;
  let A := resolve_angles a in
  let st := {| fiber := zeros_like (lv_gradient F);
               sheet := zeros_like (lv_gradient F);
               sheet_normal := zeros_like (lv_gradient F) |} in
  for_each (dof_body F A) ds st.

End Frames.

(** ** Passing one optional angle

    The eight optional angle parameters, and the call in which one of them is
    given the value [v] ([None]: the argument is omitted) while the others
    stay as in [a]. *)

Inductive optional_angle : Type :=
| AlphaEndoRv
| AlphaEpiRv
| AlphaEndoSept
| AlphaEpiSept
| BetaEndoRv
| BetaEpiRv
| BetaEndoSept
| BetaEpiSept.

Definition set_angle (k : optional_angle) (v : option R) (a : angle_args)
  : angle_args :=
  let pick := fun k' old => match k, k' with
    | AlphaEndoRv, AlphaEndoRv => v
    | AlphaEpiRv, AlphaEpiRv => v
    | AlphaEndoSept, AlphaEndoSept => v
    | AlphaEpiSept, AlphaEpiSept => v
    | BetaEndoRv, BetaEndoRv => v
    | BetaEpiRv, BetaEpiRv => v
    | BetaEndoSept, BetaEndoSept => v
    | BetaEpiSept, BetaEpiSept => v
    | _, _ => old
    end in
  {| alpha_endo_lv := alpha_endo_lv a;
     alpha_epi_lv := alpha_epi_lv a;
     alpha_endo_rv := pick AlphaEndoRv (alpha_endo_rv a);
     alpha_epi_rv := pick AlphaEpiRv (alpha_epi_rv a);
     alpha_endo_sept := pick AlphaEndoSept (alpha_endo_sept a);
     alpha_epi_sept := pick AlphaEpiSept (alpha_epi_sept a);
     beta_endo_lv := beta_endo_lv a;
     beta_epi_lv := beta_epi_lv a;
     beta_endo_rv := pick BetaEndoRv (beta_endo_rv a);
     beta_epi_rv := pick BetaEpiRv (beta_epi_rv a);
     beta_endo_sept := pick BetaEndoSept (beta_endo_sept a);
     beta_epi_sept := pick BetaEpiSept (beta_epi_sept a) |}.

(** The value of the parameter [k] after the [or] lines. *)
Definition resolved_angle (k : optional_angle) (A : region_angles) : R :=
  match k with
  | AlphaEndoRv => alpha_endo (rv_angles A)
  | AlphaEpiRv => alpha_epi (rv_angles A)
  | AlphaEndoSept => alpha_endo (sept_angles A)
  | AlphaEpiSept => alpha_epi (sept_angles A)
  | BetaEndoRv => beta_endo (rv_angles A)
  | BetaEpiRv => beta_epi (rv_angles A)
  | BetaEndoSept => beta_endo (sept_angles A)
  | BetaEpiSept => beta_epi (sept_angles A)
  end.

(** The LV parameter of the same name as [k]. *)
Definition lv_counterpart (k : optional_angle) (a : angle_args) : R :=
  match k with
  | AlphaEndoRv | AlphaEndoSept => alpha_endo_lv a
  | AlphaEpiRv | AlphaEpiSept => alpha_epi_lv a
  | BetaEndoRv | BetaEndoSept => beta_endo_lv a
  | BetaEpiRv | BetaEpiSept => beta_epi_lv a
  end.

(** The right operand of the [or] line of [k]. *)
Definition fallback_angle (k : optional_angle) (a : angle_args) : R :=
  match k with
  | AlphaEndoRv | AlphaEndoSept => alpha_endo_lv a
  | AlphaEpiRv | AlphaEpiSept => alpha_epi_lv a
  | BetaEndoRv => beta_endo_lv a
  | BetaEpiRv | BetaEndoSept | BetaEpiSept => beta_epi_lv a
  end.

(** ** An exact instance of the external libraries

    A root finder that returns a zero of the residual whenever there is one,
    and quaternion functions in exact arithmetic.  They instantiate the
    parameters where a statement is evaluated on concrete data. *)

Definition exact_solver : Solver :=
  {| optimize_root := fun f x0 => epsilon (inhabits x0) (fun x => f x = vzero) |}.

Definition qnormalize (q : quat) : quat := qscale (/ sqrt (dot q q)) q.

(** The distance the package compares with [sqrt 2] to choose the arc. *)
Definition rotor_chordal_distance (q1 q2 : quat) : R :=
  sqrt (dot (qadd q1 (qneg q2)) (qadd q1 (qneg q2))).

(** The arc from [q1] to [q2] on the unit sphere, at [tau]. *)
Definition slerp_arc (q1 q2 : quat) (tau : R) : quat :=
  let omega := acos (dot q1 q2) in
  qadd (qscale (sin ((1 - tau) * omega) / sin omega) q1)
       (qscale (sin (tau * omega) / sin omega) q2).

Definition exact_slerp (q1 q2 : quat) (t_in t_out t : R) : quat :=
  let tau := (t - t_in) / (t_out - t_in) in
  if Rle_dec (rotor_chordal_distance q1 q2) (sqrt 2)
  then slerp_arc q1 q2 tau
  else slerp_arc q1 (qneg q2) tau.

Definition exact_quaternion : QuaternionLib :=
  {| from_rotation_matrix := fun M =>
       epsilon (inhabits (mkquat 1 0 0 0)) (fun q => qunit q /\ rot_of q = M);
     as_rotation_matrix := fun q => rot_of (qnormalize q);
     slerp := exact_slerp;
     normalized := qnormalize |}.

(** The half turn about the first axis. *)
Definition half_turn_x : mat := mkmat (mkvec 1 0 0) (mkvec 0 (-1) 0) (mkvec 0 0 (-1)).

(** ** Sample data *)

(** A single sample point with the LV scalar [lv], no RV fields, a zero
    epicardial scalar, gradients along the first axis and the apex-to-base
    gradient along the third, with the default dof enumeration. *)
Definition one_point (lv : R) : field_args :=
  {| lv_scalar := [lv];
     lv_gradient := [1; 0; 0];
     epi_scalar := [0];
     epi_gradient := [1; 0; 0];
     apex_gradient := [0; 0; 1];
     dofs := None;
     rv_scalar := None;
     rv_gradient := None |}.

Definition zero_system : FiberSheetSystem :=
  {| fiber := [0; 0; 0]; sheet := [0; 0; 0]; sheet_normal := [0; 0; 0] |}.

(** A unit quaternion: a rotation of about 91 degrees. *)
Definition quat_sample : quat := mkquat (7 / 10) (1 / 10) (1 / 2) (1 / 2).

(** A unit quaternion: the rotation of about 106 degrees about the first
    axis. *)
Definition quat_far : quat := mkquat (3 / 5) (4 / 5) 0 0.

Definition trace (M : mat) : R := vx (row0 M) + vy (row1 M) + vz (row2 M).

(** The cosine of the angle of the rotation that takes the frame [Qa] to the
    frame [Qb]: two rotation matrices are at least 90 degrees apart when it
    is not positive. *)
Definition rotation_cosine (Qa Qb : mat) : R :=
  (trace (matmul (transpose Qa) Qb) - 1) / 2.

(** ** Points and slots *)

(** The entry [d] of the dof enumeration reads and writes the index [i] of the
    vector arrays. *)
Definition touches (d : dof) (i : nat) : Prop :=
  let '(x_dof, y_dof, z_dof, _) := d in i = x_dof \/ i = y_dof \/ i = z_dof.

(** The entry [d] points at data that exists, and its three scalars are below
    the tolerance of [compute_fiber_sheet_system]. *)
Definition below_tolerance (F : field_args) (d : dof) : Prop :=
  let '(x_dof, y_dof, z_dof, s_dof) := d in
  exists (lv rv epi : R) (grad_lv grad_rv grad_epi grad_ab : vec),
    getitem (lv_scalar F) s_dof = Ok lv /\
    getitem (rv_scalar_of F) s_dof = Ok rv /\
    getitem (epi_scalar F) s_dof = Ok epi /\
    getitem3 (lv_gradient F) x_dof y_dof z_dof = Ok grad_lv /\
    getitem3 (rv_gradient_of F) x_dof y_dof z_dof = Ok grad_rv /\
    getitem3 (epi_gradient F) x_dof y_dof z_dof = Ok grad_epi /\
    getitem3 (apex_gradient F) x_dof y_dof z_dof = Ok grad_ab /\
    lv < classification_tol /\ rv < classification_tol /\ epi < classification_tol.

(** ** More of the source *)

Definition vadd (u v : vec) : vec := mkvec (vx u + vx v) (vy u + vy v) (vz u + vz v).

(** The initial guess of [axis] for [e0] and the vector the root finder
    returns for it. *)
Definition axis_initial_guess (u v : vec) : vec :=
  let e1 := normalize u in
  let e2 := normalize v in
  let e2 := vsub e2 (vscale (vdot e1 e2) e1) in
  let e2 := normalize e2 in
  normalize (cross e1 e2).

Definition axis_root {slv : Solver} (u v : vec) : vec :=
  optimize_root (axis_residual (normalize u) v) (axis_initial_guess u v).

(** [dofs_from_function_space].  What dolfin is asked for is a parameter: the
    geometric dimension [dim], the ownership ranges [(start, end)] of the
    vector and of the scalar dof map, and [unowned], which says of a local
    scalar dof whether its global index is among the unowned ones. *)
Definition dofs_from_function_space (dim : nat)
           (vector_start vector_end scalar_start scalar_end : nat)
           (unowned : nat -> bool) : outcome (list dof) :=
  x_dofs <- arange 0 (vector_end - vector_start) dim ;;
  y_dofs <- arange 1 (vector_end - vector_start) dim ;;
  z_dofs <- arange 2 (vector_end - vector_start) dim ;;
  let scalar_dofs :=
    filter (fun dof => negb (unowned dof)) (seq 0 (scalar_end - scalar_start)) in
  Ok (zip4 x_dofs y_dofs z_dofs scalar_dofs).

(** The entry [d] indexes inside every array of [F] that the loop body reads
    at it. *)
Definition in_range (F : field_args) (d : dof) : Prop :=
  let '(x_dof, y_dof, z_dof, s_dof) := d in
  (s_dof < length (lv_scalar F))%nat /\
  (s_dof < length (rv_scalar_of F))%nat /\
  (s_dof < length (epi_scalar F))%nat /\
  (forall i, i = x_dof \/ i = y_dof \/ i = z_dof ->
     (i < length (lv_gradient F))%nat /\
     (i < length (rv_gradient_of F))%nat /\
     (i < length (epi_gradient F))%nat /\
     (i < length (apex_gradient F))%nat).

(** The arrays of [F] are those of [n] sample points. *)
Definition sized (F : field_args) (n : nat) : Prop :=
  length (lv_scalar F) = n /\
  length (rv_scalar_of F) = n /\
  length (epi_scalar F) = n /\
  length (lv_gradient F) = (3 * n)%nat /\
  length (rv_gradient_of F) = (3 * n)%nat /\
  length (epi_gradient F) = (3 * n)%nat /\
  length (apex_gradient F) = (3 * n)%nat.

(** The bounds enforced on a Laplace solution in [scalar_laplacians]: the
    entries below [DOLFIN_EPS] are set to it, then the entries above
    [1 - DOLFIN_EPS] are set to that.  [DOLFIN_EPS] is dolfin's constant. *)
Definition enforce_bounds (DOLFIN_EPS : R) (v : list R) : list R :=
  let v := map (fun x => if Rltb x DOLFIN_EPS then DOLFIN_EPS else x) v in
  map (fun x => if Rgtb x (1 - DOLFIN_EPS) then 1 - DOLFIN_EPS else x) v.

(** The boundary markers of [scalar_laplacians]: a dict from names to
    integers, in insertion order. *)
Module Markers.

Import Stdlib.Strings.String.
Local Open Scope string_scope.

Definition dict : Type := list (string * Z).

(** [key in markers] *)
Definition has_key (key : string) (markers : dict) : bool :=
  existsb (fun kv => String.eqb (fst kv) key) markers.

(** [markers.values()] *)
Definition values (markers : dict) : list Z := map snd markers.

(** [markers[key]] for a key that is present. *)
Definition lookup (key : string) (markers : dict) : option Z :=
  option_map snd (find (fun kv => String.eqb (fst kv) key) markers).

(** The loop [while rv_value in markers.values(): rv_value += 1], run for at
    most [fuel] tests of its condition; [None] when they do not suffice. *)
Fixpoint free_marker (fuel : nat) (vals : list Z) (rv_value : Z) : option Z :=
  match fuel with
  | O => None
  | S fuel' =>
      if existsb (Z.eqb rv_value) vals
      then free_marker fuel' vals (rv_value + 1)
      else Some rv_value
  end.

Inductive result : Type :=
| Resolved (markers : dict)
| AssertionError (key : string)
| OutOfFuel.

(** The markers [scalar_laplacians] goes on with; [default_markers] is what
    [utils.default_markers()] returns. *)
Definition resolve (fuel : nat) (default_markers : dict) (markers : option dict)
  : result :=
  match markers with
  | None => Resolved default_markers
  | Some m =>
      if negb (has_key "base" m) then AssertionError "base"
      else if negb (has_key "lv" m) then AssertionError "lv"
      else if negb (has_key "epi" m) then AssertionError "epi"
      else if negb (has_key "rv" m) then
        match free_marker fuel (values m) 20 with
        | Some rv_value => Resolved (m ++ [("rv", rv_value)])%list
        | None => OutOfFuel
        end
      else Resolved m
  end.

(** Markers with the three required names and the values 10, 20 and 21. *)
Definition sample : dict := [("base", 10%Z); ("lv", 20%Z); ("epi", 21%Z)].

End Markers.

(** ** More sample data *)

(** One sample point with every array given and the dofs passed by the
    caller. *)
Definition one_point_rv (lv rv epi : R) : field_args :=
  {| lv_scalar := [lv];
     lv_gradient := [1; 0; 0];
     epi_scalar := [epi];
     epi_gradient := [1; 0; 0];
     apex_gradient := [0; 0; 1];
     dofs := Some [(0, 1, 2, 0)%nat];
     rv_scalar := Some [rv];
     rv_gradient := Some [0; 1; 0] |}.

(** No sample point at all. *)
Definition no_points : field_args :=
  {| lv_scalar := [];
     lv_gradient := [];
     epi_scalar := [];
     epi_gradient := [];
     apex_gradient := [];
     dofs := None;
     rv_scalar := None;
     rv_gradient := None |}.

(** * Properties *)

(** ** Comparisons *)

Lemma Rltb_true (a b : R) : Rltb a b = true <-> a < b.
Proof.
  unfold Rltb. destruct (Rlt_dec a b); split; intro H; auto; discriminate.
Qed.

Lemma Rltb_false (a b : R) : Rltb a b = false <-> b <= a.
Proof.
  unfold Rltb. destruct (Rlt_dec a b); split; intro H; auto; try discriminate; lra.
Qed.

Lemma Rgtb_true (a b : R) : Rgtb a b = true <-> b < a.
Proof. apply Rltb_true. Qed.

Lemma Rgtb_false (a b : R) : Rgtb a b = false <-> a <= b.
Proof. apply Rltb_false. Qed.

Lemma py_or_none (y : R) : py_or None y = y.
Proof. reflexivity. Qed.

Lemma py_or_zero (y : R) : py_or (Some 0) y = y.
Proof.
  unfold py_or. destruct (Req_dec_T 0 0) as [_ | H]; [reflexivity |].
  contradiction H; reflexivity.
Qed.

Lemma py_or_nonzero (v y : R) : v <> 0 -> py_or (Some v) y = v.
Proof.
  intro H. unfold py_or. destruct (Req_dec_T v 0); [contradiction | reflexivity].
Qed.

(** ** [bislerp] with an absent frame *)

(** C7: [bislerp(None, None, t)] is [None], and with exactly one frame absent
    the other frame is returned unchanged, for every [t]. *)
Theorem bislerp_absent (qlib : QuaternionLib) (t : R) :
  bislerp None None t = None /\
  forall Q : mat,
    bislerp (Some Q) None t = Some Q /\ bislerp None (Some Q) t = Some Q.
Proof.
  split; [reflexivity | intro Q; split; reflexivity].
Qed.

(** ** [standard_dofs] *)

Lemma arange_length (start stop step : nat) (l : list nat) :
  arange start stop step = Ok l ->
  length l = ((stop - start + (step - 1)) / step)%nat.
Proof.
  unfold arange. destruct (Nat.eqb step 0); [discriminate |].
  intro H. injection H as <-. now rewrite length_map, length_seq.
Qed.

Lemma zip4_length_le (xs ys zs ss : list nat) :
  (length (zip4 xs ys zs ss) <= length xs)%nat.
Proof.
  revert ys zs ss.
  induction xs as [| x xs IH]; intros [| y ys] [| z zs] [| s ss]; simpl; try lia.
  specialize (IH ys zs ss). lia.
Qed.

(** Whatever the number of points, the default enumeration has at most three
    entries: the x dofs are [0, n, 2n]. *)
Lemma standard_dofs_at_most_three (n : nat) (ds : list dof) :
  standard_dofs n = Ok ds -> (length ds <= 3)%nat.
Proof.
  unfold standard_dofs.
  destruct (arange 0 (3 * n) n) as [xs |] eqn:Hx; [| discriminate].
  destruct (arange 1 (3 * n) n) as [ys |]; [| discriminate].
  destruct (arange 2 (3 * n) n) as [zs |]; [| discriminate].
  destruct (arange 0 n 1) as [ss |]; [| discriminate].
  simpl. intro H. injection H as <-.
  pose proof (zip4_length_le xs ys zs ss) as Hle.
  apply arange_length in Hx as Hlen.
  assert (Hn : n <> 0%nat).
  { intro Hn. subst n. discriminate Hx. }
  assert ((3 * n - 0 + (n - 1)) / n < 4)%nat.
  { apply Nat.Div0.div_lt_upper_bound. lia. }
  lia.
Qed.

(** With four sample points and the default enumeration, the loop of
    [compute_fiber_sheet_system] runs over three entries. *)
Lemma compute_four_points_default_dofs (slv : Solver) (qlib : QuaternionLib)
      (F : field_args) (a : angle_args) :
  dofs F = None -> length (lv_scalar F) = 4%nat ->
  compute_fiber_sheet_system F a
  = for_each (dof_body F (resolve_angles a))
             [(0, 1, 2, 0); (4, 5, 6, 1); (8, 9, 10, 2)]%nat
             {| fiber := zeros_like (lv_gradient F);
                sheet := zeros_like (lv_gradient F);
                sheet_normal := zeros_like (lv_gradient F) |}.
Proof.
  intros Hd Hn. unfold compute_fiber_sheet_system, dofs_of.
  rewrite Hd, Hn. reflexivity.
Qed.

(** C1, at four sample points: the default enumeration has three entries, with
    the vector dofs [(4, 5, 6)] and [(8, 9, 10)] for the points 1 and 2, and
    the point 3 is not enumerated. *)
Theorem standard_dofs_four_points :
  standard_dofs 4 = Ok [(0, 1, 2, 0); (4, 5, 6, 1); (8, 9, 10, 2)]%nat.
Proof. reflexivity. Qed.

(** ** The defaults of the angle parameters *)

Lemma resolved_angle_set (k : optional_angle) (v : option R) (a : angle_args) :
  resolved_angle k (resolve_angles (set_angle k v a)) = py_or v (fallback_angle k a).
Proof. destruct k; reflexivity. Qed.

(** Seven of the eight optional angles, when omitted, take the LV angle of the
    same name. *)
Lemma omitted_angle_defaults_to_lv (k : optional_angle) (a : angle_args) :
  k <> BetaEndoSept ->
  resolved_angle k (resolve_angles (set_angle k None a)) = lv_counterpart k a.
Proof.
  intro Hk. rewrite resolved_angle_set, py_or_none.
  destruct k; try reflexivity. contradiction Hk; reflexivity.
Qed.

(** An omitted [beta_endo_sept] takes [beta_epi_lv]. *)
Lemma omitted_beta_endo_sept (a : angle_args) :
  resolved_angle BetaEndoSept (resolve_angles (set_angle BetaEndoSept None a))
  = beta_epi_lv a.
Proof. reflexivity. Qed.

(** C2, with every optional angle omitted and the LV angles at their defaults:
    the septal endocardial sheet angle is 25, the default of [beta_epi_lv],
    while [beta_endo_lv] is -65. *)
Theorem beta_endo_sept_default :
  beta_endo (sept_angles (resolve_angles default_angle_args)) = 25 /\
  beta_endo_lv default_angle_args = -65 /\
  beta_epi_lv default_angle_args = 25.
Proof. repeat split; reflexivity. Qed.

(** C10: an optional RV or septal angle passed as [0.0] is treated as if it
    had been omitted.  The resolved angle is the right operand of its [or]
    line, the resolved angle sets equal those of the call without the
    argument, and so does the computed fiber-sheet system. *)
Theorem zero_angle_is_omitted (slv : Solver) (qlib : QuaternionLib)
        (k : optional_angle) (a : angle_args) (F : field_args) :
  resolved_angle k (resolve_angles (set_angle k (Some 0) a)) = fallback_angle k a /\
  resolve_angles (set_angle k (Some 0) a) = resolve_angles (set_angle k None a) /\
  compute_fiber_sheet_system F (set_angle k (Some 0) a)
  = compute_fiber_sheet_system F (set_angle k None a).
Proof.
  assert (H : resolve_angles (set_angle k (Some 0) a)
              = resolve_angles (set_angle k None a)).
  { destruct k; unfold resolve_angles, set_angle; cbn -[py_or];
      rewrite py_or_zero; reflexivity. }
  split; [| split].
  - rewrite resolved_angle_set. apply py_or_zero.
  - exact H.
  - unfold compute_fiber_sheet_system. rewrite H. reflexivity.
Qed.

(** ** The depth guard *)

(** C9: with a positive tolerance, the depth is [rv / (lv + rv)] when
    [lv + rv >= tol], and then the divisor is positive, and it is [0.5]
    otherwise; the division never raises. *)
Theorem depth_guard (lv rv tol : R) :
  0 <= lv -> 0 <= rv -> 0 < tol ->
  (tol <= lv + rv -> depth_at lv rv tol = Ok (rv / (lv + rv)) /\ 0 < lv + rv) /\
  (lv + rv < tol -> depth_at lv rv tol = Ok 0.5) /\
  (forall e, depth_at lv rv tol <> Raise e).
Proof.
  intros Hlv Hrv Htol.
  assert (Hge : tol <= lv + rv ->
                depth_at lv rv tol = Ok (rv / (lv + rv)) /\ 0 < lv + rv).
  { intro H. unfold depth_at.
    rewrite (proj2 (Rltb_false _ _) H).
    unfold py_truediv. destruct (Req_dec_T (lv + rv) 0); [lra |].
    split; [reflexivity | lra]. }
  assert (Hlt : lv + rv < tol -> depth_at lv rv tol = Ok 0.5).
  { intro H. unfold depth_at. now rewrite (proj2 (Rltb_true _ _) H). }
  split; [exact Hge | split; [exact Hlt |]].
  intros e He.
  destruct (Rlt_le_dec (lv + rv) tol) as [H | H].
  - rewrite (Hlt H) in He. discriminate.
  - rewrite (proj1 (Hge H)) in He. discriminate.
Qed.

Lemma depth_guard_witness :
  (0 <= 1 /\ 0 <= 3 /\ 0 < 1e-7) /\
  depth_at 1 3 1e-7 = Ok (3 / (1 + 3)) /\
  depth_at 0 0 1e-7 = Ok 0.5.
Proof.
  split; [lra |]. split.
  - apply (depth_guard 1 3 1e-7); lra.
  - apply (depth_guard 0 0 1e-7); lra.
Defined.

Lemma depth_at_zero_tolerance : depth_at 0 0 0 = Raise ZeroDivisionError.
Proof.
  unfold depth_at. rewrite (proj2 (Rltb_false (0 + 0) 0)) by lra.
  unfold py_truediv. destruct (Req_dec_T (0 + 0) 0); [reflexivity | lra].
Qed.

(** ** Points below the tolerance *)

Section Points.

Context {slv : Solver} {qlib : QuaternionLib}.

Lemma depth_at_below (lv rv tol : R) :
  lv < tol -> rv < tol -> exists d, depth_at lv rv tol = Ok d.
Proof.
  intros Hlv Hrv. unfold depth_at.
  destruct (Rltb (lv + rv) tol) eqn:H; [eauto |].
  apply Rltb_false in H.
  unfold py_truediv. destruct (Req_dec_T (lv + rv) 0); [lra | eauto].
Qed.

Lemma depth_at_positive_tol (lv rv tol : R) :
  0 < tol -> exists d, depth_at lv rv tol = Ok d.
Proof.
  intros Htol. unfold depth_at.
  destruct (Rltb (lv + rv) tol) eqn:H; [eauto |].
  apply Rltb_false in H.
  unfold py_truediv. destruct (Req_dec_T (lv + rv) 0); [lra | eauto].
Qed.

(** The frame tests of [system_at_dof]: once the depth is computed, no scalar
    above [tol] means no frame. *)
Lemma system_at_dof_no_frame (lv rv epi : R) (grad_lv grad_rv grad_epi grad_ab : vec)
      (alpha_endo alpha_epi beta_endo beta_epi tol d : R) :
  depth_at lv rv tol = Ok d ->
  lv <= tol -> rv <= tol -> epi <= tol ->
  system_at_dof lv rv epi grad_lv grad_rv grad_epi grad_ab
                alpha_endo alpha_epi beta_endo beta_epi tol = Ok None.
Proof.
  intros Hd Hlv Hrv Hepi. unfold system_at_dof. rewrite Hd. simpl.
  rewrite (proj2 (Rgtb_false lv tol) Hlv), (proj2 (Rgtb_false rv tol) Hrv),
    (proj2 (Rgtb_false epi tol) Hepi).
  reflexivity.
Qed.

Lemma system_at_dof_below_tol (lv rv epi : R) (grad_lv grad_rv grad_epi grad_ab : vec)
      (alpha_endo alpha_epi beta_endo beta_epi tol : R) :
  lv < tol -> rv < tol -> epi < tol ->
  system_at_dof lv rv epi grad_lv grad_rv grad_epi grad_ab
                alpha_endo alpha_epi beta_endo beta_epi tol = Ok None.
Proof.
  intros Hlv Hrv Hepi.
  destruct (depth_at_below lv rv tol Hlv Hrv) as [d Hd].
  apply (system_at_dof_no_frame _ _ _ _ _ _ _ _ _ _ _ _ d Hd); lra.
Qed.

(** A frame comes out of [system_at_dof] only if a scalar exceeds [tol]. *)
Lemma system_at_dof_frame_needs_scalar (lv rv epi : R)
      (grad_lv grad_rv grad_epi grad_ab : vec)
      (alpha_endo alpha_epi beta_endo beta_epi tol : R) (Q : mat) :
  system_at_dof lv rv epi grad_lv grad_rv grad_epi grad_ab
                alpha_endo alpha_epi beta_endo beta_epi tol = Ok (Some Q) ->
  tol < lv \/ tol < rv \/ tol < epi.
Proof.
  intro H.
  destruct (Rlt_le_dec tol lv) as [| Hlv]; [auto |].
  destruct (Rlt_le_dec tol rv) as [| Hrv]; [auto |].
  destruct (Rlt_le_dec tol epi) as [| Hepi]; [auto |].
  exfalso. destruct (depth_at lv rv tol) as [d | e] eqn:Hd.
  - rewrite (system_at_dof_no_frame _ _ _ _ _ _ _ _ _ _ _ _ d Hd Hlv Hrv Hepi) in H.
    discriminate.
  - unfold system_at_dof in H. rewrite Hd in H. discriminate.
Qed.

(** The loop body once its seven reads have succeeded. *)
Lemma dof_body_reads (F : field_args) (A : region_angles) (st : FiberSheetSystem)
      (x_dof y_dof z_dof s_dof : nat) (lv rv epi : R)
      (grad_lv grad_rv grad_epi grad_ab : vec) :
  getitem (lv_scalar F) s_dof = Ok lv ->
  getitem (rv_scalar_of F) s_dof = Ok rv ->
  getitem (epi_scalar F) s_dof = Ok epi ->
  getitem3 (lv_gradient F) x_dof y_dof z_dof = Ok grad_lv ->
  getitem3 (rv_gradient_of F) x_dof y_dof z_dof = Ok grad_rv ->
  getitem3 (epi_gradient F) x_dof y_dof z_dof = Ok grad_epi ->
  getitem3 (apex_gradient F) x_dof y_dof z_dof = Ok grad_ab ->
  dof_body F A st (x_dof, y_dof, z_dof, s_dof)
  = (Q_fiber <- system_at_dof lv rv epi grad_lv grad_rv grad_epi grad_ab
        (alpha_endo (select_angles A lv rv classification_tol))
        (alpha_epi (select_angles A lv rv classification_tol))
        (beta_endo (select_angles A lv rv classification_tol))
        (beta_epi (select_angles A lv rv classification_tol))
        classification_tol ;;
     store_frame st x_dof y_dof z_dof Q_fiber).
Proof.
  intros H1 H2 H3 H4 H5 H6 H7. unfold dof_body.
  rewrite H1, H2, H3, H4, H5, H6, H7. reflexivity.
Qed.

End Points.

(** C6: a point whose three scalars are below the tolerance has no frame, and
    the loop of [compute_fiber_sheet_system] passes over it: its iteration
    raises nothing, leaves the three output arrays as they are, and the loop
    goes on with the remaining points. *)
Theorem below_tolerance_point_is_skipped
        (slv : Solver) (qlib : QuaternionLib) (F : field_args) (A : region_angles)
        (x_dof y_dof z_dof s_dof : nat) (lv rv epi : R)
        (grad_lv grad_rv grad_epi grad_ab : vec) :
  getitem (lv_scalar F) s_dof = Ok lv ->
  getitem (rv_scalar_of F) s_dof = Ok rv ->
  getitem (epi_scalar F) s_dof = Ok epi ->
  getitem3 (lv_gradient F) x_dof y_dof z_dof = Ok grad_lv ->
  getitem3 (rv_gradient_of F) x_dof y_dof z_dof = Ok grad_rv ->
  getitem3 (epi_gradient F) x_dof y_dof z_dof = Ok grad_epi ->
  getitem3 (apex_gradient F) x_dof y_dof z_dof = Ok grad_ab ->
  lv < classification_tol -> rv < classification_tol -> epi < classification_tol ->
  (forall alpha_endo alpha_epi beta_endo beta_epi tol : R,
      lv < tol -> rv < tol -> epi < tol ->
      system_at_dof lv rv epi grad_lv grad_rv grad_epi grad_ab
                    alpha_endo alpha_epi beta_endo beta_epi tol = Ok None) /\
  (forall st, dof_body F A st (x_dof, y_dof, z_dof, s_dof) = Ok st) /\
  (forall st ds,
      for_each (dof_body F A) ((x_dof, y_dof, z_dof, s_dof) :: ds) st
      = for_each (dof_body F A) ds st).
Proof.
  intros H1 H2 H3 H4 H5 H6 H7 Hlv Hrv Hepi.
  assert (Hstep : forall st, dof_body F A st (x_dof, y_dof, z_dof, s_dof) = Ok st).
  { intro st.
    rewrite (dof_body_reads F A st _ _ _ _ _ _ _ _ _ _ _ H1 H2 H3 H4 H5 H6 H7).
    rewrite system_at_dof_below_tol by assumption. reflexivity. }
  split; [| split].
  - intros. now apply system_at_dof_below_tol.
  - exact Hstep.
  - intros st ds. cbn [for_each]. rewrite Hstep. reflexivity.
Qed.

Lemma below_tolerance_point_is_skipped_witness :
  (0 < classification_tol) /\
  dof_body (slv := exact_solver) (qlib := exact_quaternion)
           (one_point 0) (resolve_angles default_angle_args) zero_system
           (0, 1, 2, 0)%nat = Ok zero_system.
Proof.
  split; [unfold classification_tol; lra |].
  apply (below_tolerance_point_is_skipped exact_solver exact_quaternion
           (one_point 0) (resolve_angles default_angle_args) 0 1 2 0
           0 0 0 (mkvec 1 0 0) (mkvec 0 0 0) (mkvec 1 0 0) (mkvec 0 0 1));
    try reflexivity; unfold classification_tol; lra.
Defined.

(** ** The tolerance of the frame tests *)

(** With the default tolerance a scalar of [1e-4] gives an LV frame. *)
Lemma system_at_dof_lv_frame (slv : Solver) (qlib : QuaternionLib)
      (lv tol : R) (grad_lv grad_rv grad_epi grad_ab : vec)
      (alpha_endo alpha_epi beta_endo beta_epi : R) :
  0 < tol -> tol < lv ->
  exists Q, system_at_dof lv 0 0 grad_lv grad_rv grad_epi grad_ab
                          alpha_endo alpha_epi beta_endo beta_epi tol = Ok (Some Q).
Proof.
  intros Htol Hlv. unfold system_at_dof, depth_at.
  rewrite (proj2 (Rltb_false (lv + 0) tol)) by lra.
  unfold py_truediv. destruct (Req_dec_T (lv + 0) 0); [lra |].
  cbn [bind].
  rewrite (proj2 (Rgtb_true lv tol)) by lra.
  rewrite (proj2 (Rgtb_false 0 tol)) by lra.
  cbn [bislerp]. eauto.
Qed.

(** C3, refuted at one point with [lv = 1e-4] and no RV or epicardial depth:
    the call made by [compute_fiber_sheet_system], which passes its tolerance
    [1e-3], finds no frame and the output stays zero, whereas the same call
    with the tolerance [1e-7] yields a frame. *)
Lemma engine_tolerance_counterexample :
  system_at_dof (slv := exact_solver) (qlib := exact_quaternion)
    1e-4 0 0 (mkvec 1 0 0) (mkvec 0 0 0) (mkvec 1 0 0) (mkvec 0 0 1)
    40 (-50) (-65) 25 classification_tol = Ok None /\
  (exists Q,
     system_at_dof (slv := exact_solver) (qlib := exact_quaternion)
       1e-4 0 0 (mkvec 1 0 0) (mkvec 0 0 0) (mkvec 1 0 0) (mkvec 0 0 1)
       40 (-50) (-65) 25 system_at_dof_default_tol = Ok (Some Q)) /\
  compute_fiber_sheet_system (slv := exact_solver) (qlib := exact_quaternion)
    (one_point 1e-4) default_angle_args = Ok zero_system.
Proof.
  assert (H : forall a b c d,
             system_at_dof (slv := exact_solver) (qlib := exact_quaternion)
               1e-4 0 0 (mkvec 1 0 0) (mkvec 0 0 0) (mkvec 1 0 0) (mkvec 0 0 1)
               a b c d classification_tol = Ok None).
  { intros. apply system_at_dof_below_tol; unfold classification_tol; lra. }
  split; [apply H | split].
  - apply system_at_dof_lv_frame; unfold system_at_dof_default_tol; lra.
  - unfold compute_fiber_sheet_system, dofs_of. cbn [one_point dofs lv_scalar length].
    change (standard_dofs 1) with (Ok [(0, 1, 2, 0)%nat]).
    cbn [bind for_each].
    rewrite (dof_body_reads _ _ _ _ _ _ _ 1e-4 0 0
               (mkvec 1 0 0) (mkvec 0 0 0) (mkvec 1 0 0) (mkvec 0 0 1));
      try reflexivity.
    rewrite H. reflexivity.
Qed.

(** C3, amended: the tolerance [1e-3] of [compute_fiber_sheet_system] is the
    one every call of [system_at_dof] runs with, so it decides the region,
    the depth guard and the frame tests alike: the iteration of a point is the
    call with [tol = 1e-3] followed by the store, and a point none of whose
    scalars exceeds [1e-3] is left unwritten. *)
Theorem engine_runs_with_classification_tol
        (slv : Solver) (qlib : QuaternionLib) (F : field_args) (A : region_angles)
        (st : FiberSheetSystem) (x_dof y_dof z_dof s_dof : nat) (lv rv epi : R)
        (grad_lv grad_rv grad_epi grad_ab : vec) :
  getitem (lv_scalar F) s_dof = Ok lv ->
  getitem (rv_scalar_of F) s_dof = Ok rv ->
  getitem (epi_scalar F) s_dof = Ok epi ->
  getitem3 (lv_gradient F) x_dof y_dof z_dof = Ok grad_lv ->
  getitem3 (rv_gradient_of F) x_dof y_dof z_dof = Ok grad_rv ->
  getitem3 (epi_gradient F) x_dof y_dof z_dof = Ok grad_epi ->
  getitem3 (apex_gradient F) x_dof y_dof z_dof = Ok grad_ab ->
  dof_body F A st (x_dof, y_dof, z_dof, s_dof)
  = (Q_fiber <- system_at_dof lv rv epi grad_lv grad_rv grad_epi grad_ab
        (alpha_endo (select_angles A lv rv 1e-3))
        (alpha_epi (select_angles A lv rv 1e-3))
        (beta_endo (select_angles A lv rv 1e-3))
        (beta_epi (select_angles A lv rv 1e-3))
        1e-3 ;;
     store_frame st x_dof y_dof z_dof Q_fiber) /\
  (lv <= 1e-3 -> rv <= 1e-3 -> epi <= 1e-3 ->
   dof_body F A st (x_dof, y_dof, z_dof, s_dof) = Ok st) /\
  (forall st', dof_body F A st (x_dof, y_dof, z_dof, s_dof) = Ok st' -> st' <> st ->
   1e-3 < lv \/ 1e-3 < rv \/ 1e-3 < epi).
Proof.
  intros H1 H2 H3 H4 H5 H6 H7.
  pose proof (dof_body_reads F A st _ _ _ _ _ _ _ _ _ _ _ H1 H2 H3 H4 H5 H6 H7) as Hb.
  unfold classification_tol in Hb.
  assert (Hskip : lv <= 1e-3 -> rv <= 1e-3 -> epi <= 1e-3 ->
                  dof_body F A st (x_dof, y_dof, z_dof, s_dof) = Ok st).
  { intros Hlv Hrv Hepi. rewrite Hb.
    destruct (depth_at_positive_tol lv rv 1e-3) as [d Hd]; [lra |].
    rewrite (system_at_dof_no_frame _ _ _ _ _ _ _ _ _ _ _ _ d Hd Hlv Hrv Hepi).
    reflexivity. }
  split; [exact Hb | split; [exact Hskip |]].
  intros st' Hst' Hne.
  destruct (Rlt_le_dec 1e-3 lv) as [| Hlv]; [auto |].
  destruct (Rlt_le_dec 1e-3 rv) as [| Hrv]; [auto |].
  destruct (Rlt_le_dec 1e-3 epi) as [| Hepi]; [auto |].
  exfalso. rewrite (Hskip Hlv Hrv Hepi) in Hst'. injection Hst' as <-.
  apply Hne; reflexivity.
Qed.

Lemma engine_runs_with_classification_tol_witness :
  (2e-4 <= 1e-3 /\ 0 <= 1e-3) /\
  dof_body (slv := exact_solver) (qlib := exact_quaternion)
           (one_point 2e-4) (resolve_angles default_angle_args) zero_system
           (0, 1, 2, 0)%nat = Ok zero_system.
Proof.
  split; [lra |].
  apply (engine_runs_with_classification_tol exact_solver exact_quaternion
           (one_point 2e-4) (resolve_angles default_angle_args) zero_system 0 1 2 0
           2e-4 0 0 (mkvec 1 0 0) (mkvec 0 0 0) (mkvec 1 0 0) (mkvec 0 0 1));
    try reflexivity; lra.
Defined.

(** ** [np.argmax] *)

Lemma argmax_from_max (rest pre : list R) (bi : nat) (b : R) :
  (bi < length pre)%nat -> nth bi pre 0 = b -> (forall x, In x pre -> x <= b) ->
  (argmax_from bi b (length pre) rest < length (pre ++ rest))%nat /\
  (forall x, In x (pre ++ rest) ->
             x <= nth (argmax_from bi b (length pre) rest) (pre ++ rest) 0).
Proof.
  revert pre bi b.
  induction rest as [| y rest IH]; intros pre bi b Hbi Hnth Hmax.
  - simpl. rewrite app_nil_r. split; [exact Hbi |].
    intros x Hx. rewrite Hnth. now apply Hmax.
  - cbn [argmax_from].
    replace (pre ++ y :: rest) with ((pre ++ [y]) ++ rest)
      by (rewrite <- app_assoc; reflexivity).
    replace (S (length pre)) with (length (pre ++ [y]))
      by (rewrite length_app; simpl; lia).
    destruct (Rlt_dec b y) as [Hlt | Hge].
    + apply IH.
      * rewrite length_app. simpl. lia.
      * apply nth_middle.
      * intros x Hx. apply in_app_or in Hx as [Hx | [<- | []]]; [| lra].
        apply Hmax in Hx. lra.
    + apply IH.
      * rewrite length_app. simpl. lia.
      * rewrite app_nth1 by exact Hbi. exact Hnth.
      * intros x Hx. apply in_app_or in Hx as [Hx | [<- | []]]; [| lra].
        now apply Hmax.
Qed.

Lemma argmax_from_first (rest : list R) (bi i : nat) (b : R) :
  (forall x, In x rest -> x <= b) -> argmax_from bi b i rest = bi.
Proof.
  revert i. induction rest as [| y rest IH]; intros i Hmax; [reflexivity |].
  cbn [argmax_from]. destruct (Rlt_dec b y) as [Hlt | _].
  - specialize (Hmax y (or_introl eq_refl)). lra.
  - apply IH. intros x Hx. apply Hmax. now right.
Qed.

(** The entry at [argmax] bounds every entry, and the index is in range. *)
Lemma argmax_max (l : list R) :
  l <> [] ->
  (argmax l < length l)%nat /\ (forall x, In x l -> x <= nth (argmax l) l 0).
Proof.
  destruct l as [| y l]; [congruence | intros _].
  unfold argmax.
  apply (argmax_from_max l [y] 0 y); simpl; [lia | reflexivity |].
  intros x [<- | []]. lra.
Qed.

(** On ties [np.argmax] keeps the first index. *)
Lemma argmax_head (y : R) (l : list R) :
  (forall x, In x l -> x <= y) -> argmax (y :: l) = 0%nat.
Proof. intro H. unfold argmax. now apply argmax_from_first. Qed.

(** ** Quaternion algebra *)

Lemma rot_of_qneg (q : quat) : rot_of (qneg q) = rot_of q.
Proof.
  destruct q as [w x y z]. unfold rot_of, qneg. cbn [qw qx qy qz].
  f_equal; f_equal; ring.
Qed.

Lemma dot_qneg_l (p q : quat) : dot (qneg p) q = - dot p q.
Proof. destruct p, q. unfold dot, qneg. cbn [qw qx qy qz]. ring. Qed.

Lemma qunit_qneg (q : quat) : qunit q -> qunit (qneg q).
Proof.
  destruct q as [w x y z]. unfold qunit, dot, qneg. cbn [qw qx qy qz].
  intro H. etransitivity; [| exact H]. ring.
Qed.

Lemma qunit_qmul_i (q : quat) : qunit q -> qunit (qmul q quat_i).
Proof.
  destruct q as [w x y z]. unfold qunit, dot, qmul, quat_i. cbn [qw qx qy qz].
  intro H. etransitivity; [| exact H]. ring.
Qed.

Lemma qunit_qmul_j (q : quat) : qunit q -> qunit (qmul q quat_j).
Proof.
  destruct q as [w x y z]. unfold qunit, dot, qmul, quat_j. cbn [qw qx qy qz].
  intro H. etransitivity; [| exact H]. ring.
Qed.

Lemma qunit_qmul_k (q : quat) : qunit q -> qunit (qmul q quat_k).
Proof.
  destruct q as [w x y z]. unfold qunit, dot, qmul, quat_k. cbn [qw qx qy qz].
  intro H. etransitivity; [| exact H]. ring.
Qed.

(** The eight representatives of a unit quaternion are unit quaternions. *)
Lemma quat_array_unit (qa : quat) : qunit qa -> Forall qunit (quat_array qa).
Proof.
  intro H. unfold quat_array.
  repeat apply Forall_cons; try apply Forall_nil;
    auto using qunit_qneg, qunit_qmul_i, qunit_qmul_j, qunit_qmul_k.
Qed.

Lemma dot_arr_length (qa qb : quat) : length (dot_arr qa qb) = 8%nat.
Proof. reflexivity. Qed.

Lemma dot_arr_nth (qa qb : quat) (n : nat) :
  (n < 8)%nat ->
  nth n (dot_arr qa qb) 0 = Rabs (dot (nth n (quat_array qa) qa) qb).
Proof.
  intro Hn. unfold dot_arr.
  rewrite (nth_indep _ 0 (Rabs (dot qa qb))) by (rewrite length_map; exact Hn).
  apply (map_nth (fun qi => Rabs (dot qi qb))).
Qed.

Section Bislerp.

Context {qlib : QuaternionLib}.

Lemma max_dot_bounds (Qa Qb : mat) (x : R) :
  In x (dot_arr (from_rotation_matrix Qa) (from_rotation_matrix Qb)) ->
  x <= max_dot Qa Qb.
Proof.
  intro Hx. unfold max_dot. apply argmax_max; [discriminate | exact Hx].
Qed.

Lemma bislerp_some (Qa Qb : mat) (t : R) :
  bislerp (Some Qa) (Some Qb) t =
  if Rgtb (max_dot Qa Qb) (1 - 1e-12) then Some Qb
  else Some (as_rotation_matrix
               (normalized
                  (slerp (nth (argmax (dot_arr (from_rotation_matrix Qa)
                                               (from_rotation_matrix Qb)))
                              (quat_array (from_rotation_matrix Qa))
                              (from_rotation_matrix Qa))
                         (from_rotation_matrix Qb) 0 1 t))).
Proof. reflexivity. Qed.

Lemma bislerp_short_circuit (Qa Qb : mat) (t : R) :
  1 - 1e-12 < max_dot Qa Qb -> bislerp (Some Qa) (Some Qb) t = Some Qb.
Proof.
  intro H. rewrite bislerp_some. now rewrite (proj2 (Rgtb_true _ _) H).
Qed.


End Bislerp.

(** ** The exact quaternion functions meet the contract *)

Lemma qscale_one (q : quat) : qscale 1 q = q.
Proof. destruct q. unfold qscale. cbn [qw qx qy qz]. f_equal; ring. Qed.

Lemma qnormalize_unit (q : quat) : qunit q -> qnormalize q = q.
Proof.
  unfold qunit, qnormalize. intros ->. rewrite sqrt_1, Rinv_1. apply qscale_one.
Qed.

Lemma exact_from_rotation_matrix_spec (q : quat) :
  qunit q ->
  qunit (from_rotation_matrix (QuaternionLib := exact_quaternion) (rot_of q)) /\
  rot_of (from_rotation_matrix (QuaternionLib := exact_quaternion) (rot_of q))
  = rot_of q.
Proof.
  intro H. cbn [from_rotation_matrix exact_quaternion].
  apply (epsilon_spec (inhabits (mkquat 1 0 0 0))
                      (fun p => qunit p /\ rot_of p = rot_of q)).
  exists q. split; [exact H | reflexivity].
Qed.

Lemma sin_acos_pos (c : R) : Rabs c < 1 -> 0 < sin (acos c).
Proof.
  intro H. apply Rabs_def2 in H.
  destruct (acos_bound_lt c) as [H0 H1]; [lra |].
  now apply sin_gt_0.
Qed.

Lemma dot_qneg_r (p q : quat) : dot p (qneg q) = - dot p q.
Proof. destruct p, q. unfold dot, qneg. cbn [qw qx qy qz]. ring. Qed.

Lemma slerp_arc_start (q1 q2 : quat) :
  Rabs (dot q1 q2) < 1 -> slerp_arc q1 q2 ((0 - 0) / (1 - 0)) = q1.
Proof.
  intro H. apply sin_acos_pos in H. unfold slerp_arc.
  replace ((1 - (0 - 0) / (1 - 0)) * acos (dot q1 q2)) with (acos (dot q1 q2))
    by (field; lra).
  replace ((0 - 0) / (1 - 0) * acos (dot q1 q2)) with 0 by (field; lra).
  rewrite sin_0.
  replace (sin (acos (dot q1 q2)) / sin (acos (dot q1 q2))) with 1 by (field; lra).
  replace (0 / sin (acos (dot q1 q2))) with 0 by (field; lra).
  destruct q1, q2. unfold qadd, qscale. cbn [qw qx qy qz]. f_equal; ring.
Qed.

Lemma slerp_arc_end (q1 q2 : quat) :
  Rabs (dot q1 q2) < 1 -> slerp_arc q1 q2 ((1 - 0) / (1 - 0)) = q2.
Proof.
  intro H. apply sin_acos_pos in H. unfold slerp_arc.
  replace ((1 - (1 - 0) / (1 - 0)) * acos (dot q1 q2)) with 0 by (field; lra).
  replace ((1 - 0) / (1 - 0) * acos (dot q1 q2)) with (acos (dot q1 q2))
    by (field; lra).
  rewrite sin_0.
  replace (sin (acos (dot q1 q2)) / sin (acos (dot q1 q2))) with 1 by (field; lra).
  replace (0 / sin (acos (dot q1 q2))) with 0 by (field; lra).
  destruct q1, q2. unfold qadd, qscale. cbn [qw qx qy qz]. f_equal; ring.
Qed.

(** Two unit quaternions are at most [sqrt 2] apart exactly when their dot
    product is not negative. *)
Lemma rotor_chordal_distance_sqrt2 (q1 q2 : quat) :
  qunit q1 -> qunit q2 ->
  (rotor_chordal_distance q1 q2 <= sqrt 2 <-> 0 <= dot q1 q2).
Proof.
  intros H1 H2. unfold rotor_chordal_distance.
  assert (E : dot (qadd q1 (qneg q2)) (qadd q1 (qneg q2)) = 2 - 2 * dot q1 q2).
  { unfold qunit in H1, H2.
    replace (dot (qadd q1 (qneg q2)) (qadd q1 (qneg q2)))
      with (dot q1 q1 + dot q2 q2 - 2 * dot q1 q2)
      by (destruct q1, q2; unfold dot, qadd, qneg; cbn [qw qx qy qz]; ring).
    rewrite H1, H2. ring. }
  rewrite E. split.
  - intro H. destruct (Rle_dec 0 (dot q1 q2)) as [| Hn]; [assumption |].
    apply Rnot_le_lt in Hn.
    assert (sqrt 2 < sqrt (2 - 2 * dot q1 q2)) by (apply sqrt_lt_1_alt; lra).
    lra.
  - intro H. apply sqrt_le_1_alt. lra.
Qed.

Lemma exact_slerp_start (q1 q2 : quat) :
  Rabs (dot q1 q2) < 1 -> exact_slerp q1 q2 0 1 0 = q1.
Proof.
  intro H. unfold exact_slerp.
  destruct (Rle_dec _ _); apply slerp_arc_start; [exact H |].
  now rewrite dot_qneg_r, Rabs_Ropp.
Qed.

Lemma exact_slerp_end (q1 q2 : quat) :
  qunit q1 -> qunit q2 -> 0 <= dot q1 q2 < 1 -> exact_slerp q1 q2 0 1 1 = q2.
Proof.
  intros H1 H2 H. unfold exact_slerp.
  destruct (Rle_dec _ _) as [_ | Hn].
  - apply slerp_arc_end. rewrite Rabs_right; lra.
  - exfalso. apply Hn. apply rotor_chordal_distance_sqrt2; [assumption .. | lra].
Qed.

Lemma exact_slerp_end_opposite (q1 q2 : quat) :
  qunit q1 -> qunit q2 -> -1 < dot q1 q2 < 0 ->
  exact_slerp q1 q2 0 1 1 = qneg q2.
Proof.
  intros H1 H2 H. unfold exact_slerp.
  destruct (Rle_dec _ _) as [Hle | _].
  - apply rotor_chordal_distance_sqrt2 in Hle; [lra | assumption ..].
  - apply slerp_arc_end. rewrite dot_qneg_r, Rabs_Ropp, Rabs_left; lra.
Qed.

Lemma exact_quaternion_contract : quaternion_contract exact_quaternion.
Proof.
  constructor.
  - intros q H. apply (exact_from_rotation_matrix_spec q H).
  - intros q H. apply (exact_from_rotation_matrix_spec q H).
  - intros q H. cbn [as_rotation_matrix exact_quaternion].
    now rewrite qnormalize_unit.
  - intros q1 q2 _ _ H. now apply exact_slerp_start.
  - intros q1 q2 H1 H2 H. now apply exact_slerp_end.
  - intros q1 q2 H1 H2 H. now apply exact_slerp_end_opposite.
  - intros q H. now apply qnormalize_unit.
Qed.

Lemma rot_of_one : rot_of (mkquat 1 0 0 0) = identity.
Proof. unfold rot_of, identity. cbn [qw qx qy qz]. f_equal; f_equal; ring. Qed.

Lemma rot_of_quat_i : rot_of quat_i = half_turn_x.
Proof.
  unfold rot_of, half_turn_x, quat_i. cbn [qw qx qy qz]. f_equal; f_equal; ring.
Qed.

Lemma qunit_one : qunit (mkquat 1 0 0 0).
Proof. unfold qunit, dot. cbn [qw qx qy qz]. ring. Qed.

Lemma qunit_quat_i : qunit quat_i.
Proof. unfold qunit, dot, quat_i. cbn [qw qx qy qz]. ring. Qed.

(** ** Identical frames and the short circuit *)



(** ** The endpoints of [bislerp] *)

(** A unit quaternion whose rotation matrix is the identity is [1] or [-1]. *)
Lemma rot_of_identity_inv (q : quat) :
  qunit q -> rot_of q = identity ->
  qx q = 0 /\ qy q = 0 /\ qz q = 0 /\ qw q * qw q = 1.
Proof.
  destruct q as [w x y z]. unfold qunit, dot, rot_of, identity.
  cbn [qw qx qy qz]. intros Hu H.
  injection H as H00 _ _ _ H11 _ _ _ H22.
  assert (x * x = 0 /\ y * y = 0 /\ z * z = 0) as (Hx & Hy & Hz) by nra.
  repeat split; nra.
Qed.

(** A unit quaternion whose rotation matrix is the half turn about the first
    axis is [i] or [-i]. *)
Lemma rot_of_half_turn_x_inv (q : quat) :
  qunit q -> rot_of q = half_turn_x ->
  qw q = 0 /\ qy q = 0 /\ qz q = 0 /\ qx q * qx q = 1.
Proof.
  destruct q as [w x y z]. unfold qunit, dot, rot_of, half_turn_x.
  cbn [qw qx qy qz]. intros Hu H.
  injection H as H00 _ _ _ H11 _ _ _ H22.
  assert (w * w = 0 /\ y * y = 0 /\ z * z = 0) as (Hw & Hy & Hz) by nra.
  repeat split; nra.
Qed.

Lemma Rabs_of_square_one (r : R) : r * r = 1 -> Rabs r = 1.
Proof.
  intro H. unfold Rabs. destruct (Rcase_abs r); nra.
Qed.

(** Between the identity and the half turn about the first axis, which are a
    rotation of 180 degrees apart, the representative [qa * i] coincides with
    [qb] up to sign and [bislerp] returns [Qb] at every [t]. *)
Lemma bislerp_half_turn (qlib : QuaternionLib) (t : R) :
  quaternion_contract qlib ->
  bislerp (Some identity) (Some half_turn_x) t = Some half_turn_x.
Proof.
  intro Hc. apply bislerp_short_circuit.
  pose proof (from_rotation_matrix_unit qlib Hc _ qunit_one) as Hua.
  pose proof (from_rotation_matrix_repr qlib Hc _ qunit_one) as Hra.
  pose proof (from_rotation_matrix_unit qlib Hc _ qunit_quat_i) as Hub.
  pose proof (from_rotation_matrix_repr qlib Hc _ qunit_quat_i) as Hrb.
  rewrite rot_of_one in Hua, Hra. rewrite rot_of_quat_i in Hub, Hrb.
  destruct (rot_of_identity_inv _ Hua Hra) as (Hax & Hay & Haz & Haw).
  destruct (rot_of_half_turn_x_inv _ Hub Hrb) as (Hbw & Hby & Hbz & Hbx).
  set (qa := from_rotation_matrix identity) in *.
  set (qb := from_rotation_matrix half_turn_x) in *.
  apply Rlt_le_trans with (Rabs (dot (qmul qa quat_i) qb)).
  - rewrite Rabs_of_square_one; [lra |].
    unfold dot, qmul, quat_i. cbn [qw qx qy qz].
    rewrite Hax, Hay, Haz, Hbw, Hby, Hbz. nra.
  - apply max_dot_bounds. fold qa qb. unfold dot_arr, quat_array.
    cbn [map]. right. right. left. reflexivity.
Qed.

Lemma qunit_quat_far : qunit quat_far.
Proof. unfold qunit, dot, quat_far. cbn [qw qx qy qz]. field. Qed.

Lemma rot_of_squares (p q : quat) :
  qunit p -> qunit q -> rot_of p = rot_of q ->
  qw p * qw p = qw q * qw q /\ qx p * qx p = qx q * qx q /\
  qy p * qy p = qy q * qy q /\ qz p * qz p = qz q * qz q.
Proof.
  destruct p as [w x y z], q as [w' x' y' z']. unfold qunit, dot, rot_of.
  cbn [qw qx qy qz]. intros Hp Hq H.
  injection H as H00 _ _ _ H11 _ _ _ H22.
  repeat split; nra.
Qed.

Lemma Rabs_le_of_square (e k : R) : 0 <= k -> e * e <= k * k -> Rabs e <= k.
Proof. intros Hk H. unfold Rabs. destruct (Rcase_abs e); nra. Qed.

Lemma Rabs_eq_of_square (e k : R) : 0 <= k -> e * e = k * k -> Rabs e = k.
Proof. intros Hk H. unfold Rabs. destruct (Rcase_abs e); nra. Qed.

Lemma argmax_far : argmax [3 / 5; 3 / 5; 4 / 5; 4 / 5; 0; 0; 0; 0] = 2%nat.
Proof.
  unfold argmax. cbn [argmax_from].
  repeat (destruct (Rlt_dec _ _); try lra).
  reflexivity.
Qed.

(** The frames [I] and the rotation of [quat_far]: the dot products of the
    eight representatives of [qa] with [qb], whatever signs the conversion
    chooses. *)
Lemma dot_arr_far (qlib : QuaternionLib) :
  quaternion_contract qlib ->
  dot_arr (from_rotation_matrix identity) (from_rotation_matrix (rot_of quat_far))
  = [3 / 5; 3 / 5; 4 / 5; 4 / 5; 0; 0; 0; 0].
Proof.
  intro Hc.
  pose proof (from_rotation_matrix_unit qlib Hc _ qunit_one) as Hua.
  pose proof (from_rotation_matrix_repr qlib Hc _ qunit_one) as Hra.
  pose proof (from_rotation_matrix_unit qlib Hc _ qunit_quat_far) as Hub.
  pose proof (from_rotation_matrix_repr qlib Hc _ qunit_quat_far) as Hrb.
  rewrite rot_of_one in Hua, Hra.
  set (qa := from_rotation_matrix identity) in *.
  set (qb := from_rotation_matrix (rot_of quat_far)) in *.
  destruct (rot_of_identity_inv _ Hua Hra) as (Hax & Hay & Haz & Haw).
  destruct (rot_of_squares _ _ Hub qunit_quat_far Hrb) as (Hbw & Hbx & Hby & Hbz).
  unfold quat_far in Hbw, Hbx, Hby, Hbz. cbn [qw qx qy qz] in Hbw, Hbx, Hby, Hbz.
  assert (Hy : qy qb = 0) by (apply Rsqr_0_uniq; unfold Rsqr; lra).
  assert (Hz : qz qb = 0) by (apply Rsqr_0_uniq; unfold Rsqr; lra).
  unfold dot_arr, quat_array. cbn [map].
  repeat (apply f_equal2; [| try reflexivity]);
    (apply Rabs_eq_of_square; [lra |]);
    unfold dot, qmul, qneg, quat_i, quat_j, quat_k; cbn [qw qx qy qz];
    rewrite Hax, Hay, Haz, Hy, Hz; nra.
Qed.

(** Between [I] and the rotation of [quat_far] the short circuit is not taken
    and the interpolation starts from the representative [qa * i], whose
    rotation is the half turn about the first axis: that is what
    [bislerp(Qa, Qb, 0)] returns, with every package that meets the
    contract. *)
Lemma bislerp_far (qlib : QuaternionLib) :
  quaternion_contract qlib ->
  max_dot identity (rot_of quat_far) = 4 / 5 /\
  bislerp (Some identity) (Some (rot_of quat_far)) 0 = Some half_turn_x.
Proof.
  intro Hc.
  pose proof (from_rotation_matrix_unit qlib Hc _ qunit_one) as Hua.
  pose proof (from_rotation_matrix_repr qlib Hc _ qunit_one) as Hra.
  pose proof (from_rotation_matrix_unit qlib Hc _ qunit_quat_far) as Hub.
  rewrite rot_of_one in Hua, Hra.
  destruct (rot_of_identity_inv _ Hua Hra) as (Hax & Hay & Haz & Haw).
  pose proof (dot_arr_far qlib Hc) as Hd.
  assert (Hmax : max_dot identity (rot_of quat_far) = 4 / 5).
  { unfold max_dot. rewrite Hd, argmax_far. reflexivity. }
  split; [exact Hmax |].
  rewrite bislerp_some, Hmax.
  rewrite (proj2 (Rgtb_false (4 / 5) (1 - 1e-12))) by lra.
  rewrite Hd, argmax_far. cbn [nth quat_array].
  set (qa := from_rotation_matrix identity) in *.
  set (qb := from_rotation_matrix (rot_of quat_far)) in *.
  assert (Hqm : qunit (qmul qa quat_i)) by now apply qunit_qmul_i.
  assert (Hlt : Rabs (dot (qmul qa quat_i) qb) < 1).
  { change (Rabs (dot (qmul qa quat_i) qb)) with (nth 2 (dot_arr qa qb) 0).
    rewrite Hd. cbn [nth]. lra. }
  rewrite (slerp_start qlib Hc _ _ Hqm Hub Hlt).
  rewrite (normalized_unit qlib Hc _ Hqm).
  rewrite (as_rotation_matrix_unit qlib Hc _ Hqm).
  f_equal. destruct qa as [w x y z]. cbn [qw qx qy qz] in *.
  unfold rot_of, qmul, quat_i, half_turn_x. cbn [qw qx qy qz].
  rewrite Hax, Hay, Haz. f_equal; f_equal; nra.
Qed.

(** C4, refuted at [Qa = I] and [Qb] the rotation of about 106 degrees about
    the first axis (the unit quaternion [3/5 + 4/5 i]): the two rotation
    matrices are more than 90 degrees apart, the largest absolute dot product
    is [4/5], so the short circuit is not taken, and [bislerp(Qa, Qb, 0)] is
    [diag(1, -1, -1)], the rotation of the closest representative [qa * i],
    which differs from [Qa] by 2 in its middle entry. *)
Lemma bislerp_endpoint_counterexample :
  qunit (mkquat 1 0 0 0) /\ qunit quat_far /\
  rot_of (mkquat 1 0 0 0) = identity /\
  rotation_cosine identity (rot_of quat_far) = - (7 / 25) /\
  max_dot (qlib := exact_quaternion) identity (rot_of quat_far) = 4 / 5 /\
  4 / 5 <= 1 - 1e-12 /\
  bislerp (qlib := exact_quaternion) (Some identity) (Some (rot_of quat_far)) 0
  = Some half_turn_x /\
  vy (row1 identity) - vy (row1 half_turn_x) = 2.
Proof.
  destruct (bislerp_far exact_quaternion exact_quaternion_contract) as [Hm Hb].
  repeat split.
  - exact qunit_one.
  - exact qunit_quat_far.
  - exact rot_of_one.
  - unfold rotation_cosine, trace, matmul, transpose, identity, rot_of, quat_far,
      col0, col1, col2, vdot.
    cbn [row0 row1 row2 vx vy vz qw qx qy qz transpose]. field.
  - exact Hm.
  - lra.
  - exact Hb.
  - cbn. ring.
Qed.

(** C4, amended: for rotation matrices [Qa] and [Qb] (the matrices of the unit
    quaternions [a] and [b]), [bislerp(Qa, Qb, 1)] is [Qb]; when the short
    circuit is not taken, [bislerp(Qa, Qb, 0)] is the rotation matrix of the
    representative of the quaternion of [Qa] that [np.argmax] selects, the
    first with the largest absolute dot product with the quaternion of [Qb];
    it is [Qa] when the quaternion of [Qa] itself is such a
    representative. *)
Theorem bislerp_endpoints (qlib : QuaternionLib) (a b : quat) :
  quaternion_contract qlib -> qunit a -> qunit b ->
  bislerp (Some (rot_of a)) (Some (rot_of b)) 1 = Some (rot_of b) /\
  (max_dot (rot_of a) (rot_of b) <= 1 - 1e-12 ->
   bislerp (Some (rot_of a)) (Some (rot_of b)) 0
   = Some (rot_of (nth (argmax (dot_arr (from_rotation_matrix (rot_of a))
                                        (from_rotation_matrix (rot_of b))))
                       (quat_array (from_rotation_matrix (rot_of a)))
                       (from_rotation_matrix (rot_of a))))) /\
  (max_dot (rot_of a) (rot_of b) <= 1 - 1e-12 ->
   (forall x,
       In x (dot_arr (from_rotation_matrix (rot_of a))
                     (from_rotation_matrix (rot_of b))) ->
       x <= Rabs (dot (from_rotation_matrix (rot_of a))
                      (from_rotation_matrix (rot_of b)))) ->
   bislerp (Some (rot_of a)) (Some (rot_of b)) 0 = Some (rot_of a)).
Proof.
  intros Hc Ha Hb.
  pose proof (from_rotation_matrix_unit qlib Hc _ Ha) as Hua.
  pose proof (from_rotation_matrix_repr qlib Hc _ Ha) as Hra.
  pose proof (from_rotation_matrix_unit qlib Hc _ Hb) as Hub.
  pose proof (from_rotation_matrix_repr qlib Hc _ Hb) as Hrb.
  set (qa := from_rotation_matrix (rot_of a)) in *.
  set (qb := from_rotation_matrix (rot_of b)) in *.
  destruct (argmax_max (dot_arr qa qb)) as [Hidx _]; [discriminate |].
  rewrite dot_arr_length in Hidx.
  assert (Hqm : qunit (nth (argmax (dot_arr qa qb)) (quat_array qa) qa)).
  { apply Forall_nth; [now apply quat_array_unit | exact Hidx]. }
  assert (Hlt : max_dot (rot_of a) (rot_of b) <= 1 - 1e-12 ->
                Rabs (dot (nth (argmax (dot_arr qa qb)) (quat_array qa) qa) qb) < 1).
  { intro Hg. rewrite <- dot_arr_nth by exact Hidx. unfold max_dot in Hg.
    fold qa qb in Hg. lra. }
  assert (Hstart : max_dot (rot_of a) (rot_of b) <= 1 - 1e-12 ->
            bislerp (Some (rot_of a)) (Some (rot_of b)) 0
            = Some (rot_of (nth (argmax (dot_arr qa qb)) (quat_array qa) qa))).
  { intro Hg. rewrite bislerp_some. rewrite (proj2 (Rgtb_false _ _) Hg).
    fold qa qb.
    rewrite (slerp_start qlib Hc _ _ Hqm Hub (Hlt Hg)).
    rewrite (normalized_unit qlib Hc _ Hqm).
    now rewrite (as_rotation_matrix_unit qlib Hc _ Hqm). }
  split; [| split].
  - rewrite bislerp_some.
    destruct (Rgtb (max_dot (rot_of a) (rot_of b)) (1 - 1e-12)) eqn:Hg;
      [reflexivity |].
    apply Rgtb_false in Hg. specialize (Hlt Hg). fold qa qb.
    set (qm := nth (argmax (dot_arr qa qb)) (quat_array qa) qa) in *.
    apply Rabs_def2 in Hlt.
    destruct (Rle_dec 0 (dot qm qb)) as [Hpos | Hneg].
    + rewrite (slerp_end qlib Hc _ _ Hqm Hub) by lra.
      rewrite (normalized_unit qlib Hc _ Hub).
      rewrite (as_rotation_matrix_unit qlib Hc _ Hub).
      now rewrite Hrb.
    + rewrite (slerp_end_opposite qlib Hc _ _ Hqm Hub) by lra.
      rewrite (normalized_unit qlib Hc _ (qunit_qneg _ Hub)).
      rewrite (as_rotation_matrix_unit qlib Hc _ (qunit_qneg _ Hub)).
      now rewrite rot_of_qneg, Hrb.
  - exact Hstart.
  - intros Hfar Hhead. rewrite (Hstart Hfar).
    assert (H0 : argmax (dot_arr qa qb) = 0%nat).
    { unfold dot_arr, quat_array. cbn [map]. apply argmax_head.
      intros x Hx. apply Hhead. unfold dot_arr, quat_array. cbn [map].
      right. exact Hx. }
    rewrite H0. cbn [nth quat_array]. now rewrite Hra.
Qed.

Lemma qunit_quat_sample : qunit quat_sample.
Proof. unfold qunit, dot, quat_sample. cbn [qw qx qy qz]. field. Qed.

Lemma bislerp_endpoints_witness :
  (qunit (mkquat 1 0 0 0) /\ qunit quat_sample) /\
  bislerp (qlib := exact_quaternion)
          (Some (rot_of (mkquat 1 0 0 0))) (Some (rot_of quat_sample)) 1
  = Some (rot_of quat_sample) /\
  bislerp (qlib := exact_quaternion)
          (Some (rot_of (mkquat 1 0 0 0))) (Some (rot_of quat_sample)) 0
  = Some (rot_of (mkquat 1 0 0 0)).
Proof.
  split; [split; [exact qunit_one | exact qunit_quat_sample] |].
  destruct (bislerp_endpoints exact_quaternion (mkquat 1 0 0 0) quat_sample
              exact_quaternion_contract qunit_one qunit_quat_sample)
    as (H1 & _ & H0).
  split; [exact H1 |].
  destruct (exact_from_rotation_matrix_spec _ qunit_one) as [Hua Hra].
  destruct (exact_from_rotation_matrix_spec _ qunit_quat_sample) as [Hub Hrb].
  set (qa := from_rotation_matrix (rot_of (mkquat 1 0 0 0))) in *.
  set (qb := from_rotation_matrix (rot_of quat_sample)) in *.
  rewrite rot_of_one in Hra.
  destruct (rot_of_identity_inv _ Hua Hra) as (Hax & Hay & Haz & Haw).
  destruct (rot_of_squares _ _ Hub qunit_quat_sample Hrb) as (Hbw & Hbx & Hby & Hbz).
  unfold quat_sample in Hbw, Hbx, Hby, Hbz. cbn [qw qx qy qz] in Hbw, Hbx, Hby, Hbz.
  assert (Hhead : Rabs (dot qa qb) = 7 / 10).
  { apply Rabs_eq_of_square; [lra |].
    unfold dot. rewrite Hax, Hay, Haz. nra. }
  assert (Hall : forall x, In x (dot_arr qa qb) -> x <= 7 / 10).
  { intros x Hx. unfold dot_arr, quat_array in Hx. cbn [map In] in Hx.
    repeat (destruct Hx as [<- | Hx]); [.. | contradiction];
      (apply Rabs_le_of_square; [lra |]);
      unfold dot, qmul, qneg, quat_i, quat_j, quat_k; cbn [qw qx qy qz];
      rewrite Hax, Hay, Haz; nra. }
  apply H0.
  - unfold max_dot. fold qa qb.
    apply Rle_trans with (7 / 10); [| lra].
    apply Hall. apply nth_In. rewrite dot_arr_length.
    destruct (argmax_max (dot_arr qa qb)) as [Hidx _]; [discriminate |].
    now rewrite dot_arr_length in Hidx.
  - intros x Hx. rewrite Hhead. now apply Hall.
Defined.

(** ** [axis] *)

Lemma Rabs_le_bounds (a b : R) : Rabs a <= b -> - b <= a <= b.
Proof. unfold Rabs. destruct (Rcase_abs a); lra. Qed.

Lemma gram_defect_entries (Q : mat) :
  Rabs (vdot (col0 Q) (col0 Q) - 1) <= gram_defect Q /\
  Rabs (vdot (col0 Q) (col1 Q) - 0) <= gram_defect Q /\
  Rabs (vdot (col1 Q) (col2 Q) - 0) <= gram_defect Q /\
  Rabs (vdot (col2 Q) (col2 Q) - 1) <= gram_defect Q.
Proof.
  unfold gram_defect. cbv zeta.
  repeat split.
  - eapply Rle_trans; [| apply Rmax_l]. apply Rmax_l.
  - eapply Rle_trans; [| apply Rmax_l].
    eapply Rle_trans; [| apply Rmax_r]. apply Rmax_l.
  - eapply Rle_trans; [| apply Rmax_r].
    eapply Rle_trans; [| apply Rmax_l].
    eapply Rle_trans; [| apply Rmax_r]. apply Rmax_r.
  - eapply Rle_trans; [| apply Rmax_r].
    eapply Rle_trans; [| apply Rmax_r].
    eapply Rle_trans; [| apply Rmax_r]. apply Rmax_r.
Qed.

Lemma gram_defect_columns (e0 e1 e2 : vec) (tol : R) :
  gram_defect (transpose (mkmat e0 e1 e2)) <= tol ->
  - tol <= vdot e0 e0 - 1 <= tol /\
  - tol <= vdot e0 e1 <= tol /\
  - tol <= vdot e1 e2 <= tol /\
  - tol <= vdot e2 e2 - 1 <= tol.
Proof.
  intro H.
  destruct (gram_defect_entries (transpose (mkmat e0 e1 e2)))
    as (H00 & H01 & H12 & H22).
  destruct e0, e1, e2.
  unfold col0, col1, col2, transpose in H00, H01, H12, H22.
  cbn [row0 row1 row2 vx vy vz] in H00, H01, H12, H22.
  rewrite Rminus_0_r in H01, H12.
  repeat split;
    first [ apply (Rabs_le_bounds _ _ (Rle_trans _ _ _ H00 H))
          | apply (Rabs_le_bounds _ _ (Rle_trans _ _ _ H01 H))
          | apply (Rabs_le_bounds _ _ (Rle_trans _ _ _ H12 H))
          | apply (Rabs_le_bounds _ _ (Rle_trans _ _ _ H22 H)) ].
Qed.

Lemma normalize_unit_z : normalize (mkvec 0 0 1) = mkvec 0 0 1.
Proof.
  unfold normalize, norm, vdiv, vdot. cbn [vx vy vz].
  replace (0 * 0 + 0 * 0 + 1 * 1) with 1 by ring.
  rewrite sqrt_1. f_equal; field.
Qed.

Lemma axis_second_column (slv : Solver) (u v : vec) :
  col1 (axis u v) = normalize u.
Proof.
  unfold axis, col1, transpose. cbn [row0 row1 row2 vx vy vz].
  destruct (normalize u). reflexivity.
Qed.

(** Whatever vector stands in the first column, the frame built on
    [e1 = (0, 0, 1)] and [v = (3, 0, 4)] is not orthonormal. *)
Lemma oblique_frame_defect (e0 : vec) :
  let e1 := mkvec 0 0 1 in
  let v := mkvec 3 0 4 in
  let e2 := normalize (vsub v (vscale (vdot e0 v) e0)) in
  1 / 10 < gram_defect (transpose (mkmat e0 e1 e2)).
Proof.
  intros e1 v e2.
  destruct (Rlt_le_dec (1 / 10) (gram_defect (transpose (mkmat e0 e1 e2))))
    as [H | H]; [exact H | exfalso].
  apply gram_defect_columns in H as (H00 & H01 & H12 & H22).
  destruct e0 as [x y z].
  unfold e2, normalize, norm, vdiv in H12, H22.
  set (w := vsub v (vscale (vdot (mkvec x y z) v) (mkvec x y z))) in *.
  set (N := sqrt (vdot w w)) in *.
  assert (HD : 0 <= vdot w w).
  { unfold vdot. nra. }
  assert (HNN : N * N = vdot w w) by (apply sqrt_sqrt; exact HD).
  assert (HN0 : 0 <= N) by apply sqrt_pos.
  unfold e1, vdot in H00, H01, H12, H22. cbn [vx vy vz] in H00, H01, H12, H22.
  destruct (Req_dec_T N 0) as [HN | HN].
  - rewrite HN in H22. unfold Rdiv in H22. rewrite Rinv_0 in H22. lra.
  - assert (Hz : vz w = (vz w / N) * N) by (field; exact HN).
    set (q := vz w / N) in *.
    assert (Hq : q * q <= 1 / 100) by nra.
    assert (Hwz : vz w * vz w <= vdot w w / 100).
    { rewrite Hz. rewrite <- HNN. nra. }
    unfold w, v, vdot, vsub, vscale in Hwz. cbn [vx vy vz] in Hwz.
    clear - H00 H01 Hwz.
    set (s := x * 3 + y * 0 + z * 4) in *.
    assert (Hs : s * s <= 25 * (x * x + y * y + z * z)).
    { unfold s. pose proof (Rle_0_sqr (4 * x - 3 * z)) as Hsq.
      unfold Rsqr in Hsq. nra. }
    assert (Hs' : s * s <= 55 / 2) by lra.
    assert (Hz2 : z * z <= 1 / 100) by nra.
    assert (Hsz : (s * z) * (s * z) <= 1).
    { replace (s * z * (s * z)) with ((s * s) * (z * z)) by ring. nra. }
    assert (Hsz' : s * z <= 1) by nra.
    assert (Hg : 0 <= s * s * (2 - (x * x + y * y + z * z))).
    { apply Rmult_le_pos; nra. }
    nra.
Qed.

(** C5, at [u = (0, 0, 1)] and [v = (3, 0, 4)], which are neither zero nor
    parallel (their cross product is [(0, 3, 0)]): the second column of
    [axis(u, v)] is [normalize(u)], as for every [u] and [v], but whatever the
    root finder returns, an entry of [Q^T Q] is more than [1/10] away from the
    identity. *)
Theorem axis_frame_at_oblique_vectors (slv : Solver) :
  (forall u v : vec, col1 (axis u v) = normalize u) /\
  cross (mkvec 0 0 1) (mkvec 3 0 4) = mkvec 0 3 0 /\
  1 / 10 < gram_defect (axis (mkvec 0 0 1) (mkvec 3 0 4)).
Proof.
  split; [apply axis_second_column | split].
  - unfold cross. cbn [vx vy vz]. f_equal; ring.
  - unfold axis. cbv zeta. rewrite normalize_unit_z. apply oblique_frame_defect.
Qed.

(** An exactly orthonormal [axis(u, v)] forces [u] and [v] to be
    perpendicular, whatever the root finder returns. *)
Lemma axis_orthonormal_only_if_perpendicular (slv : Solver) (u v : vec) :
  gram_defect (axis u v) <= 0 -> vdot (normalize u) v = 0.
Proof.
  unfold axis. cbv zeta.
  set (e1 := normalize u).
  set (e0 := optimize_root _ _).
  clearbody e0 e1. clear u.
  intro H. apply gram_defect_columns in H as (H00 & H01 & H12 & H22).
  unfold normalize, norm, vdiv in H12, H22.
  set (w := vsub v (vscale (vdot e0 v) e0)) in *.
  set (N := sqrt (vdot w w)) in *.
  destruct (Req_dec_T N 0) as [HN | HN].
  - exfalso. rewrite HN in H22. unfold Rdiv, vdot in H22. cbn [vx vy vz] in H22.
    rewrite Rinv_0 in H22. nra.
  - assert (Hw : vdot e1 w = 0).
    { unfold vdot in H12 |- *. cbn [vx vy vz] in H12.
      assert (Hq : vx e1 * (vx w / N) + vy e1 * (vy w / N) + vz e1 * (vz w / N)
                   = (vx e1 * vx w + vy e1 * vy w + vz e1 * vz w) / N)
        by (field; exact HN).
      rewrite Hq in H12.
      assert (Hq0 : (vx e1 * vx w + vy e1 * vy w + vz e1 * vz w) / N = 0) by lra.
      apply (f_equal (fun r => r * N)) in Hq0.
      rewrite Rmult_0_l in Hq0. rewrite <- Hq0. field. exact HN. }
    assert (H01' : vdot e0 e1 = 0) by lra.
    assert (Hv : vdot e1 v = vdot e1 w + vdot e0 v * vdot e0 e1).
    { unfold w, vdot, vsub, vscale. cbn [vx vy vz]. ring. }
    rewrite Hv, Hw, H01'. ring.
Qed.

(** The matrix of a unit quaternion has orthonormal columns. *)
Lemma rot_of_orthonormal (q : quat) : qunit q -> gram_defect (rot_of q) = 0.
Proof.
  destruct q as [w x y z]. unfold qunit, dot. cbn [qw qx qy qz]. intro H.
  unfold gram_defect, rot_of, matmul, col0, col1, col2, transpose, identity, vdot.
  cbn [qw qx qy qz row0 row1 row2 vx vy vz].
  repeat match goal with
  | |- context [Rabs ?e] =>
      let E := fresh "E" in
      assert (E : e = 0) by
        (first
           [ transitivity (4 * x * y * (1 - (x * x + y * y + z * z + w * w)));
             [ring | rewrite H; ring]
           | transitivity (4 * x * z * (1 - (x * x + y * y + z * z + w * w)));
             [ring | rewrite H; ring]
           | transitivity (4 * y * z * (1 - (x * x + y * y + z * z + w * w)));
             [ring | rewrite H; ring]
           | transitivity (4 * (y * y + z * z) * ((x * x + y * y + z * z + w * w) - 1));
             [ring | rewrite H; ring]
           | transitivity (4 * (x * x + z * z) * ((x * x + y * y + z * z + w * w) - 1));
             [ring | rewrite H; ring]
           | transitivity (4 * (x * x + y * y) * ((x * x + y * y + z * z + w * w) - 1));
             [ring | rewrite H; ring] ]);
      rewrite E; clear E
  end.
  rewrite Rabs_R0.
  assert (Hm : Rmax 0 0 = 0) by (apply Rmax_left; lra).
  rewrite !Hm. reflexivity.
Qed.

(** ** The output at the points that are passed over *)

Lemma bind_ok_inv {A B : Type} (m : outcome A) (k : A -> outcome B) (b : B) :
  bind m k = Ok b -> exists a, m = Ok a /\ k a = Ok b.
Proof. destruct m as [a | e]; simpl; [eauto | discriminate]. Qed.

Lemma set_nth_other (a : list R) (j : nat) (v : R) (a' : list R) (i : nat) :
  set_nth a j v = Ok a' -> i <> j -> nth_error a' i = nth_error a i.
Proof.
  revert j a' i. induction a as [| x a IH]; intros j a' i H Hij; [discriminate |].
  destruct j as [| j]; simpl in H.
  - injection H as <-. destruct i; [congruence | reflexivity].
  - apply bind_ok_inv in H as (a'' & Ha'' & H). injection H as <-.
    destruct i as [| i]; [reflexivity |]. simpl. apply (IH j); [exact Ha'' | lia].
Qed.

Lemma setitem3_other (a : list R) (x_dof y_dof z_dof : nat) (u : vec)
      (a' : list R) (i : nat) :
  setitem3 a x_dof y_dof z_dof u = Ok a' ->
  i <> x_dof -> i <> y_dof -> i <> z_dof -> nth_error a' i = nth_error a i.
Proof.
  unfold setitem3. intros H Hx Hy Hz.
  apply bind_ok_inv in H as (a1 & H1 & H).
  apply bind_ok_inv in H as (a2 & H2 & H3).
  rewrite (set_nth_other _ _ _ _ i H3 Hz), (set_nth_other _ _ _ _ i H2 Hy).
  apply (set_nth_other _ _ _ _ i H1 Hx).
Qed.

(** The three output arrays at the index [i]. *)
Lemma store_frame_other (st st' : FiberSheetSystem) (x_dof y_dof z_dof : nat)
      (Q : option mat) (i : nat) :
  store_frame st x_dof y_dof z_dof Q = Ok st' ->
  i <> x_dof -> i <> y_dof -> i <> z_dof ->
  nth_error (fiber st') i = nth_error (fiber st) i /\
  nth_error (sheet st') i = nth_error (sheet st) i /\
  nth_error (sheet_normal st') i = nth_error (sheet_normal st) i.
Proof.
  intros H Hx Hy Hz. destruct Q as [Q |]; simpl in H.
  - apply bind_ok_inv in H as (f0 & Hf & H).
    apply bind_ok_inv in H as (s0 & Hs & H).
    apply bind_ok_inv in H as (n0 & Hn & H).
    injection H as <-. cbn [fiber sheet sheet_normal].
    repeat split; eapply setitem3_other; eauto.
  - injection H as <-. auto.
Qed.

Section Slots.

Context {slv : Solver} {qlib : QuaternionLib}.

Lemma dof_body_other (F : field_args) (A : region_angles)
      (st st' : FiberSheetSystem) (d : dof) (i : nat) :
  dof_body F A st d = Ok st' -> ~ touches d i ->
  nth_error (fiber st') i = nth_error (fiber st) i /\
  nth_error (sheet st') i = nth_error (sheet st) i /\
  nth_error (sheet_normal st') i = nth_error (sheet_normal st) i.
Proof.
  destruct d as [[[x_dof y_dof] z_dof] s_dof]. unfold dof_body, touches.
  intros H Hi.
  repeat (apply bind_ok_inv in H as (? & _ & H)).
  eapply store_frame_other; [exact H | | |]; intro; subst; apply Hi; auto.
Qed.

Lemma below_tolerance_skips (F : field_args) (A : region_angles)
      (st : FiberSheetSystem) (d : dof) :
  below_tolerance F d -> dof_body F A st d = Ok st.
Proof.
  destruct d as [[[x_dof y_dof] z_dof] s_dof].
  intros (lv & rv & epi & g1 & g2 & g3 & g4 &
          H1 & H2 & H3 & H4 & H5 & H6 & H7 & Hlv & Hrv & Hepi).
  rewrite (dof_body_reads F A st _ _ _ _ _ _ _ _ _ _ _ H1 H2 H3 H4 H5 H6 H7).
  rewrite system_at_dof_below_tol by assumption. reflexivity.
Qed.

Lemma for_each_untouched (F : field_args) (A : region_angles) (i : nat)
      (ds : list dof) (st st' : FiberSheetSystem) :
  (forall d, In d ds -> touches d i -> below_tolerance F d) ->
  for_each (dof_body F A) ds st = Ok st' ->
  nth_error (fiber st') i = nth_error (fiber st) i /\
  nth_error (sheet st') i = nth_error (sheet st) i /\
  nth_error (sheet_normal st') i = nth_error (sheet_normal st) i.
Proof.
  revert st. induction ds as [| d ds IH]; intros st Hds H.
  - injection H as <-. auto.
  - cbn [for_each] in H. apply bind_ok_inv in H as (st1 & H1 & H).
    assert (Hrest : forall d', In d' ds -> touches d' i -> below_tolerance F d').
    { intros d' Hd'. apply Hds. now right. }
    destruct (IH st1 Hrest H) as (Hf & Hs & Hn).
    rewrite Hf, Hs, Hn.
    assert (Hdec : touches d i \/ ~ touches d i).
    { destruct d as [[[x y] z] s]. unfold touches.
      destruct (Nat.eq_dec i x), (Nat.eq_dec i y), (Nat.eq_dec i z); tauto. }
    destruct Hdec as [Ht | Hnt].
    + rewrite (below_tolerance_skips F A st d) in H1
        by (apply Hds; [now left | exact Ht]).
      injection H1 as <-. auto.
    + apply (dof_body_other F A st st1 d i H1 Hnt).
Qed.

(** When every enumerated point that touches the index [i] is below the
    tolerance, the computed fiber, sheet and sheet-normal arrays hold zero at
    [i]. *)
Lemma skipped_slots_are_zero (F : field_args) (a : angle_args)
      (ds : list dof) (out : FiberSheetSystem) (i : nat) :
  dofs_of F = Ok ds ->
  (forall d, In d ds -> touches d i -> below_tolerance F d) ->
  (i < length (lv_gradient F))%nat ->
  compute_fiber_sheet_system F a = Ok out ->
  nth_error (fiber out) i = Some 0 /\
  nth_error (sheet out) i = Some 0 /\
  nth_error (sheet_normal out) i = Some 0.
Proof.
  intros Hds Hskip Hi H. unfold compute_fiber_sheet_system in H.
  rewrite Hds in H. cbn [bind] in H.
  apply (for_each_untouched F _ i) in H; [| exact Hskip].
  cbn [fiber sheet sheet_normal] in H. unfold zeros_like in H.
  rewrite nth_error_repeat in H by exact Hi. exact H.
Qed.

End Slots.

(** ** Further instances *)

Lemma standard_dofs_at_most_three_witness :
  standard_dofs 5 = Ok [(0, 1, 2, 0); (5, 6, 7, 1); (10, 11, 12, 2)]%nat /\
  (length [(0, 1, 2, 0); (5, 6, 7, 1); (10, 11, 12, 2)]%nat <= 3)%nat.
Proof.
  split; [reflexivity |].
  apply (standard_dofs_at_most_three 5). reflexivity.
Defined.

Lemma omitted_angle_defaults_to_lv_witness :
  resolved_angle AlphaEpiRv
    (resolve_angles (set_angle AlphaEpiRv None default_angle_args)) = -50.
Proof.
  apply (omitted_angle_defaults_to_lv AlphaEpiRv default_angle_args). discriminate.
Defined.

(** The region tests at the tolerance [1e-3]: both scalars at [0.5] select the
    septal angles, [lv = 0.5] with [rv = 0] the LV angles, and both at zero
    the LV angles again. *)
Lemma select_angles_regions (A : region_angles) :
  select_angles A 0.5 0.5 classification_tol = sept_angles A /\
  select_angles A 0.5 0 classification_tol = lv_angles A /\
  select_angles A 0 0.5 classification_tol = rv_angles A /\
  select_angles A 0 0 classification_tol = lv_angles A.
Proof.
  unfold select_angles, classification_tol.
  rewrite (proj2 (Rgtb_true 0.5 1e-3)) by lra.
  rewrite (proj2 (Rgtb_false 0 1e-3)) by lra.
  rewrite (proj2 (Rltb_true 0 1e-3)) by lra.
  rewrite (proj2 (Rltb_false 0.5 1e-3)) by lra.
  repeat split; reflexivity.
Qed.

Lemma rot_of_orthonormal_witness :
  qunit quat_sample /\ gram_defect (rot_of quat_sample) = 0.
Proof.
  split; [exact qunit_quat_sample |].
  apply (rot_of_orthonormal quat_sample). exact qunit_quat_sample.
Defined.

Lemma one_point_below_tolerance : below_tolerance (one_point 0) (0, 1, 2, 0)%nat.
Proof.
  exists 0, 0, 0, (mkvec 1 0 0), (mkvec 0 0 0), (mkvec 1 0 0), (mkvec 0 0 1).
  unfold classification_tol. repeat split; try reflexivity; lra.
Qed.

Lemma skipped_slots_are_zero_witness :
  compute_fiber_sheet_system (slv := exact_solver) (qlib := exact_quaternion)
    (one_point 0) default_angle_args = Ok zero_system /\
  nth_error (fiber zero_system) 1 = Some 0 /\
  nth_error (sheet zero_system) 1 = Some 0 /\
  nth_error (sheet_normal zero_system) 1 = Some 0.
Proof.
  assert (H : compute_fiber_sheet_system (slv := exact_solver)
                (qlib := exact_quaternion) (one_point 0) default_angle_args
              = Ok zero_system).
  { unfold compute_fiber_sheet_system, dofs_of.
    cbn [one_point dofs lv_scalar length].
    change (standard_dofs 1) with (Ok [(0, 1, 2, 0)%nat]).
    cbn [bind for_each].
    rewrite below_tolerance_skips by exact one_point_below_tolerance.
    reflexivity. }
  split; [exact H |].
  apply (skipped_slots_are_zero (slv := exact_solver) (qlib := exact_quaternion)
           (one_point 0) default_angle_args [(0, 1, 2, 0)%nat] zero_system 1).
  - reflexivity.
  - intros d [<- | []] _. exact one_point_below_tolerance.
  - simpl. lia.
  - exact H.
Defined.

Lemma system_at_dof_frame_needs_scalar_witness :
  exists Q : mat,
    system_at_dof (slv := exact_solver) (qlib := exact_quaternion)
      1e-4 0 0 (mkvec 1 0 0) (mkvec 0 0 0) (mkvec 1 0 0) (mkvec 0 0 1)
      40 (-50) (-65) 25 system_at_dof_default_tol = Ok (Some Q) /\
    (system_at_dof_default_tol < 1e-4 \/ system_at_dof_default_tol < 0 \/
     system_at_dof_default_tol < 0).
Proof.
  destruct (system_at_dof_lv_frame exact_solver exact_quaternion 1e-4
              system_at_dof_default_tol (mkvec 1 0 0) (mkvec 0 0 0) (mkvec 1 0 0)
              (mkvec 0 0 1) 40 (-50) (-65) 25) as [Q HQ];
    [unfold system_at_dof_default_tol; lra .. |].
  exists Q. split; [exact HQ |].
  apply (system_at_dof_frame_needs_scalar _ _ _ _ _ _ _ _ _ _ _ _ Q HQ).
Defined.

(** * Further properties of the source *)

(** ** The enumerations of the dofs *)

Lemma div_by_remainder (a n q r : nat) :
  a = (n * q + r)%nat -> (r < n)%nat -> (a / n = q)%nat.
Proof. intros Ha Hr. symmetry. now apply (Nat.div_unique a n q r). Qed.

Lemma dof_eq (x y z s x' y' z' s' : nat) :
  x = x' -> y = y' -> z = z' -> s = s' -> (x, y, z, s) = (x', y', z', s').
Proof. now intros -> -> -> ->. Qed.

Ltac dofs_eq :=
  repeat match goal with
         | |- Ok _ = Ok _ => apply f_equal
         | |- _ :: _ = _ :: _ => apply f_equal2
         | |- (_, _, _, _) = (_, _, _, _) => apply dof_eq; lia
         | |- [] = [] => reflexivity
         end.

(** [np.arange] stays below its stop. *)
Lemma arange_lt (start stop step : nat) (l : list nat) (x : nat) :
  arange start stop step = Ok l -> In x l -> (x < stop)%nat.
Proof.
  unfold arange. destruct (Nat.eqb_spec step 0) as [| Hs]; [discriminate |].
  intro H. injection H as <-. intro Hx.
  apply in_map_iff in Hx as (i & <- & Hi). apply in_seq in Hi as [_ Hi].
  cbn [Nat.add] in Hi.
  pose proof (Nat.Div0.mul_div_le (stop - start + (step - 1)) step) as Hq.
  nia.
Qed.

Lemma zip4_In (xs ys zs ss : list nat) (x y z s : nat) :
  In (x, y, z, s) (zip4 xs ys zs ss) ->
  In x xs /\ In y ys /\ In z zs /\ In s ss.
Proof.
  revert ys zs ss.
  induction xs as [| x0 xs IH]; intros [| y0 ys] [| z0 zs] [| s0 ss];
    cbn [zip4]; try contradiction.
  intros [H | H].
  - injection H as -> -> -> ->. repeat split; now left.
  - apply IH in H as (Hx & Hy & Hz & Hs). repeat split; now right.
Qed.

(** The default enumeration stays inside the arrays of [n] points. *)
Lemma standard_dofs_bounded (n : nat) (ds : list dof) (x y z s : nat) :
  standard_dofs n = Ok ds -> In (x, y, z, s) ds ->
  (x < 3 * n)%nat /\ (y < 3 * n)%nat /\ (z < 3 * n)%nat /\ (s < n)%nat.
Proof.
  unfold standard_dofs. intros H Hin.
  apply bind_ok_inv in H as (xs & Hxs & H).
  apply bind_ok_inv in H as (ys & Hys & H).
  apply bind_ok_inv in H as (zs & Hzs & H).
  apply bind_ok_inv in H as (ss & Hss & H).
  injection H as <-. apply zip4_In in Hin as (Hx & Hy & Hz & Hs).
  repeat split;
    [ exact (arange_lt _ _ _ _ _ Hxs Hx) | exact (arange_lt _ _ _ _ _ Hys Hy)
    | exact (arange_lt _ _ _ _ _ Hzs Hz) | exact (arange_lt _ _ _ _ _ Hss Hs) ].
Qed.

(** From three sample points on, [standard_dofs] enumerates the three entries
    whose x dofs are [0], [n] and [2 n], for the points 0, 1 and 2. *)
Lemma standard_dofs_three_entries (n : nat) :
  (3 <= n)%nat ->
  standard_dofs n
  = Ok [(0, 1, 2, 0); (n, n + 1, n + 2, 1); (2 * n, 2 * n + 1, 2 * n + 2, 2)]%nat.
Proof.
  intro Hn. unfold standard_dofs, arange.
  destruct (Nat.eqb_spec n 0) as [-> | _]; [lia |].
  rewrite (div_by_remainder (3 * n - 0 + (n - 1)) n 3 (n - 1)) by lia.
  rewrite (div_by_remainder (3 * n - 1 + (n - 1)) n 3 (n - 2)) by lia.
  rewrite (div_by_remainder (3 * n - 2 + (n - 1)) n 3 (n - 3)) by lia.
  cbn [Nat.eqb bind]. rewrite Nat.sub_0_r, Nat.add_0_r, Nat.div_1_r.
  destruct n as [| [| [| m]]]; try lia.
  cbn [seq map zip4]. dofs_eq.
Qed.

Lemma standard_dofs_three_entries_witness :
  (3 <= 7)%nat /\
  standard_dofs 7 = Ok [(0, 1, 2, 0); (7, 8, 9, 1); (14, 15, 16, 2)]%nat.
Proof.
  split; [lia |]. apply (standard_dofs_three_entries 7). lia.
Defined.

Lemma zip4_map (f g h : nat -> nat) (l : list nat) :
  zip4 (map f l) (map g l) (map h l) l = map (fun i => (f i, g i, h i, i)) l.
Proof. induction l as [| i l IH]; simpl; [reflexivity | now rewrite IH]. Qed.

Lemma filter_all {A : Type} (p : A -> bool) (l : list A) :
  (forall x, In x l -> p x = true) -> filter p l = l.
Proof.
  induction l as [| x l IH]; intro H; simpl; [reflexivity |].
  rewrite (H x (or_introl eq_refl)). f_equal. apply IH. intros y Hy. apply H. now right.
Qed.

(** On one process (no scalar dof is unowned), in three dimensions, with
    [3 n] vector dofs and [n] scalar dofs, [dofs_from_function_space]
    enumerates every point [i < n] once, with the vector dofs
    [(3 i, 3 i + 1, 3 i + 2)]. *)
Lemma dofs_from_function_space_serial
      (n vector_start scalar_start : nat) (unowned : nat -> bool) :
  (forall i, (i < n)%nat -> unowned i = false) ->
  dofs_from_function_space 3 vector_start (vector_start + 3 * n)
                           scalar_start (scalar_start + n) unowned
  = Ok (map (fun i => (3 * i, 3 * i + 1, 3 * i + 2, i)%nat) (seq 0 n)).
Proof.
  intro Hown. unfold dofs_from_function_space, arange.
  replace (vector_start + 3 * n - vector_start)%nat with (3 * n)%nat by lia.
  replace (scalar_start + n - scalar_start)%nat with n by lia.
  cbn [Nat.eqb bind].
  rewrite (div_by_remainder (3 * n - 0 + (3 - 1)) 3 n 2) by lia.
  assert (H1 : ((3 * n - 1 + (3 - 1)) / 3 = n)%nat).
  { destruct n as [| m]; [reflexivity |].
    apply (div_by_remainder _ 3 (S m) 1); lia. }
  assert (H2 : ((3 * n - 2 + (3 - 1)) / 3 = n)%nat).
  { destruct n as [| m]; [reflexivity |].
    apply (div_by_remainder _ 3 (S m) 0); lia. }
  rewrite H1, H2.
  rewrite filter_all.
  - rewrite zip4_map. f_equal. apply map_ext. intro i. apply dof_eq; lia.
  - intros i Hi. apply in_seq in Hi. rewrite Hown by lia. reflexivity.
Qed.

Lemma dofs_from_function_space_serial_witness :
  dofs_from_function_space 3 0 6 0 2 (fun _ => false)
  = Ok [(0, 1, 2, 0); (3, 4, 5, 1)]%nat.
Proof.
  apply (dofs_from_function_space_serial 2 0 0 (fun _ => false)). reflexivity.
Defined.

(** ** Reading and writing the arrays *)

Lemma bind_raise_inv {A B : Type} (m : outcome A) (k : A -> outcome B) (e : exn) :
  bind m k = Raise e -> m = Raise e \/ exists a, m = Ok a /\ k a = Raise e.
Proof.
  destruct m as [a | e']; simpl; intro H; [right; eauto | left].
  injection H as ->. reflexivity.
Qed.

Lemma getitem_ok (a : list R) (i : nat) :
  (i < length a)%nat -> exists v, getitem a i = Ok v.
Proof.
  intro H. unfold getitem. destruct (nth_error a i) as [v |] eqn:E; [eauto |].
  apply nth_error_None in E. lia.
Qed.

Lemma getitem3_ok (a : list R) (x_dof y_dof z_dof : nat) :
  (x_dof < length a)%nat -> (y_dof < length a)%nat -> (z_dof < length a)%nat ->
  exists u, getitem3 a x_dof y_dof z_dof = Ok u.
Proof.
  intros Hx Hy Hz. unfold getitem3.
  destruct (getitem_ok a x_dof Hx) as [x ->].
  destruct (getitem_ok a y_dof Hy) as [y ->].
  destruct (getitem_ok a z_dof Hz) as [z ->].
  simpl. eauto.
Qed.

Lemma set_nth_length (a : list R) (i : nat) (v : R) (a' : list R) :
  set_nth a i v = Ok a' -> length a' = length a.
Proof.
  revert i a'. induction a as [| x a IH]; intros i a' H; [discriminate |].
  destruct i as [| i]; simpl in H.
  - injection H as <-. reflexivity.
  - apply bind_ok_inv in H as (a'' & Ha'' & H). injection H as <-.
    simpl. f_equal. now apply (IH i).
Qed.

Lemma set_nth_ok (a : list R) (i : nat) (v : R) :
  (i < length a)%nat -> exists a', set_nth a i v = Ok a'.
Proof.
  revert i. induction a as [| x a IH]; intros i H; simpl in H; [lia |].
  destruct i as [| i]; simpl; [eauto |].
  destruct (IH i) as [a' ->]; [lia |]. simpl. eauto.
Qed.

Lemma set_nth_same (a : list R) (i : nat) (v : R) (a' : list R) :
  set_nth a i v = Ok a' -> nth_error a' i = Some v.
Proof.
  revert i a'. induction a as [| x a IH]; intros i a' H; [discriminate |].
  destruct i as [| i]; simpl in H.
  - injection H as <-. reflexivity.
  - apply bind_ok_inv in H as (a'' & Ha'' & H). injection H as <-.
    simpl. now apply (IH i).
Qed.

Lemma setitem3_length (a : list R) (x_dof y_dof z_dof : nat) (u : vec) (a' : list R) :
  setitem3 a x_dof y_dof z_dof u = Ok a' -> length a' = length a.
Proof.
  unfold setitem3. intro H.
  apply bind_ok_inv in H as (a1 & H1 & H).
  apply bind_ok_inv in H as (a2 & H2 & H3).
  apply set_nth_length in H1, H2, H3. congruence.
Qed.

Lemma setitem3_ok (a : list R) (x_dof y_dof z_dof : nat) (u : vec) :
  (x_dof < length a)%nat -> (y_dof < length a)%nat -> (z_dof < length a)%nat ->
  exists a', setitem3 a x_dof y_dof z_dof u = Ok a'.
Proof.
  intros Hx Hy Hz. unfold setitem3.
  destruct (set_nth_ok a x_dof (vx u) Hx) as [a1 H1]. rewrite H1. cbn [bind].
  apply set_nth_length in H1.
  destruct (set_nth_ok a1 y_dof (vy u)) as [a2 H2]; [lia |]. rewrite H2. cbn [bind].
  apply set_nth_length in H2.
  apply set_nth_ok. lia.
Qed.

(** A write of three distinct indices is read back. *)
Lemma setitem3_getitem3 (a : list R) (x_dof y_dof z_dof : nat) (u : vec) (a' : list R) :
  setitem3 a x_dof y_dof z_dof u = Ok a' ->
  x_dof <> y_dof -> x_dof <> z_dof -> y_dof <> z_dof ->
  getitem3 a' x_dof y_dof z_dof = Ok u.
Proof.
  unfold setitem3. intros H Hxy Hxz Hyz.
  apply bind_ok_inv in H as (a1 & H1 & H).
  apply bind_ok_inv in H as (a2 & H2 & H3).
  unfold getitem3, getitem.
  rewrite (set_nth_other _ _ _ _ x_dof H3 Hxz), (set_nth_other _ _ _ _ x_dof H2 Hxy),
    (set_nth_same _ _ _ _ H1).
  rewrite (set_nth_other _ _ _ _ y_dof H3 Hyz), (set_nth_same _ _ _ _ H2).
  rewrite (set_nth_same _ _ _ _ H3).
  destruct u. reflexivity.
Qed.

Lemma store_frame_length (st st' : FiberSheetSystem) (x_dof y_dof z_dof : nat)
      (Q : option mat) :
  store_frame st x_dof y_dof z_dof Q = Ok st' ->
  length (fiber st') = length (fiber st) /\
  length (sheet st') = length (sheet st) /\
  length (sheet_normal st') = length (sheet_normal st).
Proof.
  intro H. destruct Q as [Q |]; simpl in H.
  - apply bind_ok_inv in H as (f0 & Hf & H).
    apply bind_ok_inv in H as (s0 & Hs & H).
    apply bind_ok_inv in H as (n0 & Hn & H).
    injection H as <-. cbn [fiber sheet sheet_normal].
    repeat split; eapply setitem3_length; eauto.
  - injection H as <-. auto.
Qed.

Lemma for_each_invariant {S D : Type} (P : S -> Prop) (body : S -> D -> outcome S)
      (ds : list D) (st st' : S) :
  (forall s d s', P s -> body s d = Ok s' -> P s') ->
  P st -> for_each body ds st = Ok st' -> P st'.
Proof.
  intro Hstep. revert st. induction ds as [| d ds IH]; intros st HP H.
  - injection H as <-. exact HP.
  - cbn [for_each] in H. apply bind_ok_inv in H as (s1 & H1 & H).
    apply (IH s1); [eapply Hstep; eauto | exact H].
Qed.

Lemma for_each_ext {S D : Type} (body body' : S -> D -> outcome S)
      (ds : list D) (st : S) :
  (forall s d, In d ds -> body s d = body' s d) ->
  for_each body ds st = for_each body' ds st.
Proof.
  revert st. induction ds as [| d ds IH]; intros st H; [reflexivity |].
  cbn [for_each]. rewrite (H st d) by now left.
  destruct (body' st d) as [s1 | e]; [| reflexivity].
  cbn [bind]. apply IH. intros s d' Hd'. apply H. now right.
Qed.

Lemma zeros_like_length (a : list R) : length (zeros_like a) = length a.
Proof. unfold zeros_like. apply repeat_length. Qed.

(** ** Exceptions and shapes of [compute_fiber_sheet_system] *)

Lemma arange_raise (start stop step : nat) (e : exn) :
  arange start stop step = Raise e -> step = 0%nat /\ e = ZeroDivisionError.
Proof.
  unfold arange. destruct (Nat.eqb_spec step 0) as [-> | _]; [| discriminate].
  intro H. injection H as <-. auto.
Qed.

Lemma standard_dofs_raise (n : nat) (e : exn) :
  standard_dofs n = Raise e -> n = 0%nat /\ e = ZeroDivisionError.
Proof.
  unfold standard_dofs. intro H.
  apply bind_raise_inv in H as [H | (xs & _ & H)]; [now apply arange_raise in H |].
  apply bind_raise_inv in H as [H | (ys & _ & H)]; [now apply arange_raise in H |].
  apply bind_raise_inv in H as [H | (zs & _ & H)]; [now apply arange_raise in H |].
  apply bind_raise_inv in H as [H | (ss & _ & H)]; [| discriminate].
  apply arange_raise in H as [H _]. discriminate.
Qed.

Lemma store_frame_ok (st : FiberSheetSystem) (x_dof y_dof z_dof : nat)
      (Q : option mat) (n : nat) :
  length (fiber st) = n -> length (sheet st) = n -> length (sheet_normal st) = n ->
  (x_dof < n)%nat -> (y_dof < n)%nat -> (z_dof < n)%nat ->
  exists st', store_frame st x_dof y_dof z_dof Q = Ok st'.
Proof.
  intros Lf Ls Ln Hx Hy Hz. destruct Q as [Q |]; cbn [store_frame]; [| eauto].
  destruct (setitem3_ok (fiber st) x_dof y_dof z_dof (row0 (transpose Q)))
    as [f0 ->]; try lia.
  destruct (setitem3_ok (sheet st) x_dof y_dof z_dof (row1 (transpose Q)))
    as [s0 ->]; try lia.
  destruct (setitem3_ok (sheet_normal st) x_dof y_dof z_dof (row2 (transpose Q)))
    as [n0 ->]; try lia.
  cbn [bind]. eauto.
Qed.

Section ComputeFacts.

Context {slv : Solver} {qlib : QuaternionLib}.

Lemma system_at_dof_no_index_error (lv rv epi : R)
      (grad_lv grad_rv grad_epi grad_ab : vec)
      (alpha_endo alpha_epi beta_endo beta_epi tol : R) :
  system_at_dof lv rv epi grad_lv grad_rv grad_epi grad_ab
                alpha_endo alpha_epi beta_endo beta_epi tol <> Raise IndexError.
Proof.
  unfold system_at_dof, depth_at, py_truediv.
  destruct (Rltb (lv + rv) tol); cbn [bind]; [discriminate |].
  destruct (Req_dec_T (lv + rv) 0); cbn [bind]; discriminate.
Qed.

Lemma dof_body_length (F : field_args) (A : region_angles)
      (st st' : FiberSheetSystem) (d : dof) :
  dof_body F A st d = Ok st' ->
  length (fiber st') = length (fiber st) /\
  length (sheet st') = length (sheet st) /\
  length (sheet_normal st') = length (sheet_normal st).
Proof.
  destruct d as [[[x_dof y_dof] z_dof] s_dof]. unfold dof_body. intro H.
  repeat (apply bind_ok_inv in H as (? & _ & H)).
  now apply store_frame_length in H.
Qed.

Lemma dof_body_in_range (F : field_args) (A : region_angles)
      (st : FiberSheetSystem) (d : dof) :
  in_range F d ->
  length (fiber st) = length (lv_gradient F) ->
  length (sheet st) = length (lv_gradient F) ->
  length (sheet_normal st) = length (lv_gradient F) ->
  dof_body F A st d <> Raise IndexError.
Proof.
  destruct d as [[[x_dof y_dof] z_dof] s_dof].
  intros (Hs1 & Hs2 & Hs3 & Hv) Lf Ls Ln.
  destruct (Hv x_dof) as (Hx1 & Hx2 & Hx3 & Hx4); [auto |].
  destruct (Hv y_dof) as (Hy1 & Hy2 & Hy3 & Hy4); [auto |].
  destruct (Hv z_dof) as (Hz1 & Hz2 & Hz3 & Hz4); [auto |].
  destruct (getitem_ok _ _ Hs1) as [lv Hlv].
  destruct (getitem_ok _ _ Hs2) as [rv Hrv].
  destruct (getitem_ok _ _ Hs3) as [epi Hepi].
  destruct (getitem3_ok _ _ _ _ Hx1 Hy1 Hz1) as [g1 Hg1].
  destruct (getitem3_ok _ _ _ _ Hx2 Hy2 Hz2) as [g2 Hg2].
  destruct (getitem3_ok _ _ _ _ Hx3 Hy3 Hz3) as [g3 Hg3].
  destruct (getitem3_ok _ _ _ _ Hx4 Hy4 Hz4) as [g4 Hg4].
  rewrite (dof_body_reads F A st _ _ _ _ _ _ _ _ _ _ _ Hlv Hrv Hepi Hg1 Hg2 Hg3 Hg4).
  match goal with
  | |- context [system_at_dof ?a ?b ?c ?d ?e ?f ?g ?h ?i ?j ?k ?t] =>
      pose proof (system_at_dof_no_index_error a b c d e f g h i j k t) as Hsys;
      destruct (system_at_dof a b c d e f g h i j k t) as [Q | e']
  end.
  - cbn [bind].
    destruct (store_frame_ok st x_dof y_dof z_dof Q (length (lv_gradient F)))
      as [st' ->]; auto. discriminate.
  - cbn [bind]. intro H. apply Hsys. injection H as ->. reflexivity.
Qed.

(** The three output arrays have the length of [lv_gradient], whatever the
    dofs are. *)
Lemma compute_output_lengths (F : field_args) (a : angle_args)
      (out : FiberSheetSystem) :
  compute_fiber_sheet_system F a = Ok out ->
  length (fiber out) = length (lv_gradient F) /\
  length (sheet out) = length (lv_gradient F) /\
  length (sheet_normal out) = length (lv_gradient F).
Proof.
  unfold compute_fiber_sheet_system. intro H.
  apply bind_ok_inv in H as (ds & _ & H).
  apply (for_each_invariant
           (fun st => length (fiber st) = length (lv_gradient F) /\
                      length (sheet st) = length (lv_gradient F) /\
                      length (sheet_normal st) = length (lv_gradient F)))
    in H; [exact H | |].
  - intros s d s' (Lf & Ls & Ln) Hb.
    apply dof_body_length in Hb as (Hf & Hs & Hn). repeat split; congruence.
  - cbn [fiber sheet sheet_normal]. rewrite zeros_like_length. auto.
Qed.

(** A loop over dofs inside the arrays raises no [IndexError]. *)
Lemma for_each_in_range (F : field_args) (A : region_angles) (ds : list dof)
      (st : FiberSheetSystem) :
  (forall d, In d ds -> in_range F d) ->
  length (fiber st) = length (lv_gradient F) ->
  length (sheet st) = length (lv_gradient F) ->
  length (sheet_normal st) = length (lv_gradient F) ->
  for_each (dof_body F A) ds st <> Raise IndexError.
Proof.
  revert st. induction ds as [| d ds IH]; intros st Hin Lf Ls Ln.
  - simpl. discriminate.
  - cbn [for_each].
    pose proof (dof_body_in_range F A st d (Hin d (or_introl eq_refl)) Lf Ls Ln)
      as Hd.
    destruct (dof_body F A st d) as [st1 | e] eqn:H1; cbn [bind]; [| exact Hd].
    apply dof_body_length in H1 as (Hf & Hs & Hn).
    apply IH; try congruence.
    intros d' Hd'. apply Hin. now right.
Qed.

(** With every enumerated dof inside the arrays, no [IndexError] is
    raised. *)
Lemma in_range_dofs_no_index_error (F : field_args) (a : angle_args)
      (ds : list dof) :
  dofs_of F = Ok ds ->
  (forall d, In d ds -> in_range F d) ->
  compute_fiber_sheet_system F a <> Raise IndexError.
Proof.
  intros Hds Hin. unfold compute_fiber_sheet_system. rewrite Hds. cbn [bind].
  apply for_each_in_range; [exact Hin | ..];
    cbn [fiber sheet sheet_normal]; apply zeros_like_length.
Qed.

(** On no sample point, the default enumeration raises. *)
Lemma compute_no_points_raises (F : field_args) (a : angle_args) :
  lv_scalar F = [] -> dofs F = None ->
  compute_fiber_sheet_system F a = Raise ZeroDivisionError.
Proof.
  intros Hl Hd. unfold compute_fiber_sheet_system, dofs_of. rewrite Hd, Hl. reflexivity.
Qed.

End ComputeFacts.

Section ComputeMore.

Context {slv : Solver} {qlib : QuaternionLib}.

Lemma sized_in_range (F : field_args) (n x_dof y_dof z_dof s_dof : nat) :
  sized F n ->
  (s_dof < n)%nat -> (x_dof < 3 * n)%nat -> (y_dof < 3 * n)%nat ->
  (z_dof < 3 * n)%nat ->
  in_range F (x_dof, y_dof, z_dof, s_dof).
Proof.
  intros (H1 & H2 & H3 & H4 & H5 & H6 & H7) Hs Hx Hy Hz. unfold in_range.
  rewrite H1, H2, H3, H4, H5, H6, H7. repeat split; try lia;
    destruct H as [-> | [-> | ->]]; lia.
Qed.

(** With the default enumeration and arrays of the sizes of [n] sample
    points ([n] scalars and [3 n] vector entries each), no [IndexError] is
    raised: the entries of [standard_dofs], few as they are, stay inside the
    arrays. *)
Lemma default_dofs_no_index_error (F : field_args) (a : angle_args) (n : nat) :
  sized F n -> dofs F = None ->
  compute_fiber_sheet_system F a <> Raise IndexError.
Proof.
  intros Hsz Hd.
  assert (Hds : dofs_of F = standard_dofs n).
  { unfold dofs_of. rewrite Hd. destruct Hsz as (-> & _). reflexivity. }
  unfold compute_fiber_sheet_system. rewrite Hds.
  destruct (standard_dofs n) as [ds | e] eqn:E.
  - cbn [bind]. apply for_each_in_range;
      [| cbn [fiber sheet sheet_normal]; apply zeros_like_length ..].
    intros [[[x y] z] s] Hin.
    destruct (standard_dofs_bounded n ds x y z s E Hin) as (Hx & Hy & Hz & Hs).
    now apply (sized_in_range F n).
  - apply standard_dofs_raise in E as [_ ->]. cbn [bind]. discriminate.
Qed.

(** A frame stored at three distinct dofs is read back column by column: the
    fiber is the first column, the sheet the second and the sheet normal the
    third. *)
Lemma store_frame_columns (st st' : FiberSheetSystem) (x_dof y_dof z_dof : nat)
      (Q : mat) :
  store_frame st x_dof y_dof z_dof (Some Q) = Ok st' ->
  x_dof <> y_dof -> x_dof <> z_dof -> y_dof <> z_dof ->
  getitem3 (fiber st') x_dof y_dof z_dof = Ok (col0 Q) /\
  getitem3 (sheet st') x_dof y_dof z_dof = Ok (col1 Q) /\
  getitem3 (sheet_normal st') x_dof y_dof z_dof = Ok (col2 Q).
Proof.
  intros H Hxy Hxz Hyz. cbn [store_frame] in H.
  apply bind_ok_inv in H as (f0 & Hf & H).
  apply bind_ok_inv in H as (s0 & Hs & H).
  apply bind_ok_inv in H as (n0 & Hn & H).
  injection H as <-. cbn [fiber sheet sheet_normal].
  repeat split; eapply setitem3_getitem3; eauto.
Qed.

Lemma select_angles_without_rv (A : region_angles) (lv rv tol : R) :
  rv <= tol -> select_angles A lv rv tol = lv_angles A.
Proof.
  intro H. unfold select_angles.
  rewrite (proj2 (Rgtb_false rv tol) H).
  destruct (Rgtb lv tol), (Rltb rv tol), (Rltb lv tol); reflexivity.
Qed.

Lemma getitem_zeros_like (a : list R) (i : nat) (v : R) :
  getitem (zeros_like a) i = Ok v -> v = 0.
Proof.
  unfold getitem, zeros_like. destruct (nth_error _ i) as [w |] eqn:E; [| discriminate].
  intro H. injection H as <-. apply nth_error_In in E. now apply repeat_spec in E.
Qed.

Lemma dof_body_without_rv (F : field_args) (A A' : region_angles)
      (st : FiberSheetSystem) (d : dof) :
  rv_scalar F = None -> lv_angles A = lv_angles A' ->
  dof_body F A st d = dof_body F A' st d.
Proof.
  intros Hrv HA. destruct d as [[[x_dof y_dof] z_dof] s_dof]. unfold dof_body.
  destruct (getitem (lv_scalar F) s_dof) as [lv |]; cbn [bind]; [| reflexivity].
  destruct (getitem (rv_scalar_of F) s_dof) as [rv |] eqn:E; cbn [bind];
    [| reflexivity].
  unfold rv_scalar_of in E. rewrite Hrv in E. apply getitem_zeros_like in E. subst rv.
  rewrite !select_angles_without_rv by (unfold classification_tol; lra).
  rewrite HA. reflexivity.
Qed.

(** Without an RV scalar field every point takes the LV angles: the result
    does not depend on the RV and septal angle parameters. *)
Lemma compute_without_rv_uses_lv_angles (F : field_args) (a a' : angle_args) :
  rv_scalar F = None ->
  alpha_endo_lv a = alpha_endo_lv a' -> alpha_epi_lv a = alpha_epi_lv a' ->
  beta_endo_lv a = beta_endo_lv a' -> beta_epi_lv a = beta_epi_lv a' ->
  compute_fiber_sheet_system F a = compute_fiber_sheet_system F a'.
Proof.
  intros Hrv H1 H2 H3 H4. unfold compute_fiber_sheet_system.
  destruct (dofs_of F) as [ds | e]; cbn [bind]; [| reflexivity].
  apply for_each_ext. intros s d _. apply dof_body_without_rv; [exact Hrv |].
  unfold resolve_angles. cbn [lv_angles]. now rewrite H1, H2, H3, H4.
Qed.

End ComputeMore.

Lemma default_dofs_no_index_error_witness :
  sized (one_point 1) 1 /\ dofs (one_point 1) = None /\
  compute_fiber_sheet_system (slv := exact_solver) (qlib := exact_quaternion)
    (one_point 1) default_angle_args <> Raise IndexError.
Proof.
  assert (H : sized (one_point 1) 1) by (repeat split).
  split; [exact H |]. split; [reflexivity |].
  exact (default_dofs_no_index_error (slv := exact_solver)
           (qlib := exact_quaternion) (one_point 1) default_angle_args 1 H eq_refl).
Defined.

(** ** [bislerp] and [system_at_dof] *)

Section Engine.

Context {slv : Solver} {qlib : QuaternionLib}.

Lemma bislerp_none_inv (Qa Qb : option mat) (t : R) :
  bislerp Qa Qb t = None -> Qa = None /\ Qb = None.
Proof.
  destruct Qa as [A |], Qb as [B |]; cbn [bislerp]; try discriminate; [| auto].
  change (bislerp (Some A) (Some B) t = None -> Some A = None /\ Some B = None).
  rewrite bislerp_some. destruct (Rgtb _ _); discriminate.
Qed.

(** [bislerp] is absent only when both frames are. *)
Lemma bislerp_none_iff (Qa Qb : option mat) (t : R) :
  bislerp Qa Qb t = None <-> Qa = None /\ Qb = None.
Proof.
  split; [apply bislerp_none_inv |]. intros [-> ->]. reflexivity.
Qed.

(** When one of the scalars is above the tolerance, what [system_at_dof]
    returns is a frame, not [None]. *)
Lemma system_at_dof_frame_above_tol (lv rv epi : R)
      (grad_lv grad_rv grad_epi grad_ab : vec)
      (alpha_endo alpha_epi beta_endo beta_epi tol : R) (Q : option mat) :
  tol < lv \/ tol < rv \/ tol < epi ->
  system_at_dof lv rv epi grad_lv grad_rv grad_epi grad_ab
                alpha_endo alpha_epi beta_endo beta_epi tol = Ok Q ->
  exists M, Q = Some M.
Proof.
  intros Hs H. unfold system_at_dof in H.
  apply bind_ok_inv in H as (d & _ & H). injection H as H.
  destruct Q as [M |]; [eauto |].
  exfalso. apply bislerp_none_inv in H as [E1 E2].
  apply bislerp_none_inv in E1 as [E3 E4].
  destruct Hs as [Hs | [Hs | Hs]].
  - rewrite (proj2 (Rgtb_true lv tol) Hs) in E3. discriminate.
  - rewrite (proj2 (Rgtb_true rv tol) Hs) in E4. discriminate.
  - rewrite (proj2 (Rgtb_true epi tol) Hs) in E2. discriminate.
Qed.

(** A point on the LV side only ([rv = 0], [epi] not above the tolerance):
    the frame is [axis(grad_ab, -grad_lv)] turned by the endocardial angles;
    the epicardial angles and the other two gradients play no part. *)
Lemma system_at_dof_lv_only (lv epi : R) (grad_lv grad_rv grad_epi grad_ab : vec)
      (alpha_endo alpha_epi beta_endo beta_epi tol : R) :
  0 <= tol -> tol < lv -> epi <= tol ->
  system_at_dof lv 0 epi grad_lv grad_rv grad_epi grad_ab
                alpha_endo alpha_epi beta_endo beta_epi tol
  = Ok (Some (orient (axis grad_ab (vscale (-1) grad_lv)) alpha_endo beta_endo)).
Proof.
  intros Htol Hlv Hepi. unfold system_at_dof, depth_at, py_truediv.
  rewrite (proj2 (Rltb_false (lv + 0) tol)) by lra.
  destruct (Req_dec_T (lv + 0) 0); [lra |]. cbn [bind].
  rewrite (proj2 (Rgtb_true lv tol) Hlv).
  rewrite (proj2 (Rgtb_false 0 tol) Htol).
  rewrite (proj2 (Rgtb_false epi tol) Hepi).
  cbn [bislerp]. do 3 f_equal.
  - unfold Rdiv. ring.
  - unfold Rdiv. ring.
Qed.

(** A point on the epicardium only ([epi = 1], [lv] and [rv] not above the
    tolerance): the frame is [axis(grad_ab, grad_epi)] turned by the
    epicardial angles. *)
Lemma system_at_dof_epi_only (lv rv : R) (grad_lv grad_rv grad_epi grad_ab : vec)
      (alpha_endo alpha_epi beta_endo beta_epi tol : R) :
  0 < tol -> tol < 1 -> lv <= tol -> rv <= tol ->
  system_at_dof lv rv 1 grad_lv grad_rv grad_epi grad_ab
                alpha_endo alpha_epi beta_endo beta_epi tol
  = Ok (Some (orient (axis grad_ab grad_epi) alpha_epi beta_epi)).
Proof.
  intros Htol Htol1 Hlv Hrv.
  destruct (depth_at_positive_tol lv rv tol Htol) as [d Hd].
  unfold system_at_dof. rewrite Hd. cbn [bind].
  rewrite (proj2 (Rgtb_false lv tol) Hlv).
  rewrite (proj2 (Rgtb_false rv tol) Hrv).
  rewrite (proj2 (Rgtb_true 1 tol) Htol1).
  cbn [bislerp]. do 3 f_equal; ring.
Qed.

End Engine.

(** For non-negative scalars the depth lies in [[0, 1]]. *)
Lemma depth_at_range (lv rv tol d : R) :
  0 <= lv -> 0 <= rv -> depth_at lv rv tol = Ok d -> 0 <= d <= 1.
Proof.
  intros Hlv Hrv. unfold depth_at, py_truediv.
  destruct (Rltb (lv + rv) tol); [intro H; injection H as <-; lra |].
  destruct (Req_dec_T (lv + rv) 0) as [| Hne]; [discriminate |].
  intro H. injection H as <-.
  assert (Hpos : 0 < lv + rv) by lra.
  split.
  - apply Rmult_le_pos; [lra |]. left. now apply Rinv_0_lt_compat.
  - apply (Rmult_le_reg_r (lv + rv)); [exact Hpos |].
    unfold Rdiv. rewrite Rmult_assoc, Rinv_l by lra. lra.
Qed.

Lemma depth_at_range_witness :
  (0 <= 1 /\ 0 <= 3) /\ depth_at 1 3 1e-7 = Ok (3 / (1 + 3)) /\
  0 <= 3 / (1 + 3) <= 1.
Proof.
  assert (H : depth_at 1 3 1e-7 = Ok (3 / (1 + 3))).
  { unfold depth_at, py_truediv.
    rewrite (proj2 (Rltb_false (1 + 3) 1e-7)) by lra.
    destruct (Req_dec_T (1 + 3) 0); [lra | reflexivity]. }
  split; [lra | split; [exact H |]].
  apply (depth_at_range 1 3 1e-7); [lra | lra | exact H].
Defined.

Lemma system_at_dof_frame_above_tol_witness :
  (1e-7 < 1 \/ 1e-7 < 0 \/ 1e-7 < 0) /\
  exists Q M,
    system_at_dof (slv := exact_solver) (qlib := exact_quaternion)
      1 0 0 (mkvec 1 0 0) (mkvec 0 1 0) (mkvec 1 0 0) (mkvec 0 0 1)
      40 (-50) (-65) 25 1e-7 = Ok Q /\ Q = Some M.
Proof.
  assert (Hs : 1e-7 < 1 \/ 1e-7 < 0 \/ 1e-7 < 0) by (left; lra).
  split; [exact Hs |].
  destruct (system_at_dof_lv_frame exact_solver exact_quaternion 1 1e-7
              (mkvec 1 0 0) (mkvec 0 1 0) (mkvec 1 0 0) (mkvec 0 0 1)
              40 (-50) (-65) 25) as [M0 H0]; [lra | lra |].
  destruct (system_at_dof_frame_above_tol (slv := exact_solver)
              (qlib := exact_quaternion) _ _ _ _ _ _ _ _ _ _ _ _ _ Hs H0)
    as [M HM].
  exists (Some M0), M. split; [exact H0 | exact HM].
Defined.

Lemma system_at_dof_lv_only_witness :
  (0 <= 1e-7 /\ 1e-7 < 1 /\ 0 <= 1e-7) /\
  system_at_dof (slv := exact_solver) (qlib := exact_quaternion)
    1 0 0 (mkvec 1 0 0) (mkvec 0 1 0) (mkvec 1 0 0) (mkvec 0 0 1)
    40 (-50) (-65) 25 1e-7
  = Ok (Some (orient (axis (slv := exact_solver) (mkvec 0 0 1)
                           (vscale (-1) (mkvec 1 0 0))) 40 (-65))).
Proof.
  split; [lra |].
  apply (system_at_dof_lv_only (slv := exact_solver) (qlib := exact_quaternion)); lra.
Defined.

Lemma system_at_dof_epi_only_witness :
  (0 < 1e-7 /\ 1e-7 < 1 /\ 0 <= 1e-7) /\
  system_at_dof (slv := exact_solver) (qlib := exact_quaternion)
    0 0 1 (mkvec 1 0 0) (mkvec 0 1 0) (mkvec 1 0 0) (mkvec 0 0 1)
    40 (-50) (-65) 25 1e-7
  = Ok (Some (orient (axis (slv := exact_solver) (mkvec 0 0 1) (mkvec 1 0 0))
                     (-50) 25)).
Proof.
  split; [lra |].
  apply (system_at_dof_epi_only (slv := exact_solver) (qlib := exact_quaternion)); lra.
Defined.

(** ** [orient] *)

Ltac mat_ring :=
  repeat match goal with
         | M : mat |- _ => destruct M as [[? ? ?] [? ? ?] [? ? ?]]
         | u : vec |- _ => destruct u as [? ? ?]
         end;
  unfold matmul, transpose, col0, col1, col2, transpose, identity, vdot,
    vadd, vscale, vsub;
  cbn [row0 row1 row2 vx vy vz];
  repeat (f_equal; try ring).

Lemma matmul_assoc (A B C : mat) : matmul (matmul A B) C = matmul A (matmul B C).
Proof. mat_ring. Qed.

Lemma transpose_matmul (A B : mat) :
  transpose (matmul A B) = matmul (transpose B) (transpose A).
Proof. mat_ring. Qed.

Lemma matmul_identity_l (A : mat) : matmul identity A = A.
Proof. mat_ring. Qed.

Lemma matmul_identity_r (A : mat) : matmul A identity = A.
Proof. mat_ring. Qed.

Lemma Rmax_zero (x y : R) : 0 <= x -> 0 <= y -> Rmax x y = 0 -> x = 0 /\ y = 0.
Proof.
  intros Hx Hy H. pose proof (Rmax_l x y). pose proof (Rmax_r x y). lra.
Qed.

Lemma Rabs_minus_zero (x y : R) : Rabs (x - y) = 0 -> x = y.
Proof.
  intro H. destruct (Req_dec_T (x - y) 0) as [E | E]; [lra |].
  apply Rabs_no_R0 in E. contradiction.
Qed.

Lemma Rmax_nonneg (x y : R) : 0 <= x -> 0 <= Rmax x y.
Proof. intro H. pose proof (Rmax_l x y). lra. Qed.

(** The columns of [Q] are orthonormal exactly when [Q^T Q] is the identity. *)
Lemma gram_defect_zero_iff (Q : mat) :
  gram_defect Q = 0 <-> matmul (transpose Q) Q = identity.
Proof.
  unfold gram_defect. cbv zeta.
  destruct (matmul (transpose Q) Q) as [[a b c] [d e f] [g h i]].
  unfold identity. cbn [row0 row1 row2 vx vy vz].
  split.
  - intro H.
    apply Rmax_zero in H as [H0 H12];
      [| repeat apply Rmax_nonneg; apply Rabs_pos ..].
    apply Rmax_zero in H12 as [H1 H2];
      [| repeat apply Rmax_nonneg; apply Rabs_pos ..].
    apply Rmax_zero in H0 as [Ha Hbc]; [| try apply Rmax_nonneg; apply Rabs_pos ..].
    apply Rmax_zero in Hbc as [Hb Hc]; [| apply Rabs_pos ..].
    apply Rmax_zero in H1 as [Hd Hef]; [| try apply Rmax_nonneg; apply Rabs_pos ..].
    apply Rmax_zero in Hef as [He Hf]; [| apply Rabs_pos ..].
    apply Rmax_zero in H2 as [Hg Hhi]; [| try apply Rmax_nonneg; apply Rabs_pos ..].
    apply Rmax_zero in Hhi as [Hh Hi]; [| apply Rabs_pos ..].
    apply Rabs_minus_zero in Ha, Hb, Hc, Hd, He, Hf, Hg, Hh, Hi.
    now subst.
  - intro H. injection H as -> -> -> -> -> -> -> -> ->.
    replace (1 - 1) with 0 by ring. replace (0 - 0) with 0 by ring.
    rewrite Rabs_R0.
    assert (Hm : Rmax 0 0 = 0) by (apply Rmax_left; lra).
    now rewrite !Hm.
Qed.

Lemma rotation_alpha_orthogonal (c s : R) :
  c * c + s * s = 1 ->
  matmul (transpose (mkmat (mkvec c (- s) 0) (mkvec s c 0) (mkvec 0 0 1)))
         (mkmat (mkvec c (- s) 0) (mkvec s c 0) (mkvec 0 0 1)) = identity.
Proof.
  intro H. unfold matmul, transpose, col0, col1, col2, transpose, identity, vdot.
  cbn [row0 row1 row2 vx vy vz].
  f_equal; f_equal; try ring; rewrite <- H; ring.
Qed.

Lemma rotation_beta_orthogonal (c s : R) :
  c * c + s * s = 1 ->
  matmul (transpose (mkmat (mkvec 1 0 0) (mkvec 0 c s) (mkvec 0 (- s) c)))
         (mkmat (mkvec 1 0 0) (mkvec 0 c s) (mkvec 0 (- s) c)) = identity.
Proof.
  intro H. unfold matmul, transpose, col0, col1, col2, transpose, identity, vdot.
  cbn [row0 row1 row2 vx vy vz].
  f_equal; f_equal; try ring; rewrite <- H; ring.
Qed.

Lemma cos2_sin2 (x : R) : cos x * cos x + sin x * sin x = 1.
Proof. pose proof (sin2_cos2 x) as H. unfold Rsqr in H. lra. Qed.

(** Zero angles leave a frame as it is. *)
Lemma orient_zero_angles (Q : mat) : orient Q 0 0 = Q.
Proof.
  unfold orient, radians.
  replace (0 * PI / 180) with 0 by (unfold Rdiv; ring).
  rewrite cos_0, sin_0. replace (- 0) with 0 by ring.
  fold identity. now rewrite !matmul_identity_r.
Qed.

(** The columns after [orient]: the first is the first column of [Q] turned
    towards the second by [alpha], whatever [beta] is; the other two are the
    turned second column and the third column of [Q], turned by [beta]. *)
Lemma orient_columns (Q : mat) (alpha beta : R) :
  let f := vadd (vscale (cos (radians alpha)) (col0 Q))
                (vscale (sin (radians alpha)) (col1 Q)) in
  let s := vsub (vscale (cos (radians alpha)) (col1 Q))
                (vscale (sin (radians alpha)) (col0 Q)) in
  col0 (orient Q alpha beta) = f /\
  col1 (orient Q alpha beta)
  = vsub (vscale (cos (radians beta)) s) (vscale (sin (radians beta)) (col2 Q)) /\
  col2 (orient Q alpha beta)
  = vadd (vscale (sin (radians beta)) s) (vscale (cos (radians beta)) (col2 Q)).
Proof.
  cbv zeta. unfold orient.
  generalize (cos (radians alpha)) (sin (radians alpha))
             (cos (radians beta)) (sin (radians beta)).
  intros ca sa cb sb. destruct Q as [[a b c] [d e f] [g h i]].
  unfold matmul, transpose, col0, col1, col2, transpose, vdot, vadd, vscale, vsub.
  cbn [row0 row1 row2 vx vy vz].
  repeat split; f_equal; ring.
Qed.

(** [orient] turns an orthonormal frame into an orthonormal frame. *)
Lemma orient_orthonormal (Q : mat) (alpha beta : R) :
  gram_defect Q = 0 -> gram_defect (orient Q alpha beta) = 0.
Proof.
  rewrite !gram_defect_zero_iff. intro H. unfold orient.
  set (A := mkmat (mkvec (cos (radians alpha)) (- sin (radians alpha)) 0)
                  (mkvec (sin (radians alpha)) (cos (radians alpha)) 0)
                  (mkvec 0 0 1)).
  set (B := mkmat (mkvec 1 0 0)
                  (mkvec 0 (cos (radians beta)) (sin (radians beta)))
                  (mkvec 0 (- sin (radians beta)) (cos (radians beta)))).
  rewrite !transpose_matmul.
  rewrite (matmul_assoc (transpose B)).
  rewrite (matmul_assoc (transpose A)).
  rewrite <- (matmul_assoc (transpose Q)).
  rewrite <- (matmul_assoc (transpose Q)).
  rewrite H, matmul_identity_l.
  rewrite <- (matmul_assoc (transpose A)).
  unfold A at 1 2. rewrite rotation_alpha_orthogonal by apply cos2_sin2.
  rewrite matmul_identity_l.
  unfold B. apply rotation_beta_orthogonal. apply cos2_sin2.
Qed.

Lemma orient_orthonormal_witness :
  gram_defect identity = 0 /\ gram_defect (orient identity 40 (-65)) = 0.
Proof.
  assert (H : gram_defect identity = 0).
  { apply gram_defect_zero_iff. apply matmul_identity_r. }
  split; [exact H |]. apply (orient_orthonormal identity 40 (-65) H).
Defined.

(** ** [axis] with a converged root finder *)

Lemma axis_unfold (slv : Solver) (u v : vec) :
  axis u v
  = transpose
      (mkmat (axis_root u v) (normalize u)
             (normalize (vsub v (vscale (vdot (axis_root u v) v) (axis_root u v))))).
Proof. reflexivity. Qed.

Lemma gram_of_columns (e0 e1 e2 : vec) :
  matmul (transpose (transpose (mkmat e0 e1 e2))) (transpose (mkmat e0 e1 e2))
  = mkmat (mkvec (vdot e0 e0) (vdot e0 e1) (vdot e0 e2))
          (mkvec (vdot e1 e0) (vdot e1 e1) (vdot e1 e2))
          (mkvec (vdot e2 e0) (vdot e2 e1) (vdot e2 e2)).
Proof. destruct e0, e1, e2. reflexivity. Qed.

Lemma vdot_comm (u v : vec) : vdot u v = vdot v u.
Proof. unfold vdot. ring. Qed.

Lemma norm_sqr (u : vec) : norm u * norm u = vdot u u.
Proof. unfold norm. apply sqrt_sqrt. unfold vdot. nra. Qed.

Lemma norm_nonneg (u : vec) : 0 <= norm u.
Proof. apply sqrt_pos. Qed.

Lemma norm_pos (u : vec) : 0 < vdot u u -> 0 < norm u.
Proof.
  intro H. pose proof (norm_sqr u). pose proof (norm_nonneg u).
  destruct (Req_dec_T (norm u) 0) as [E | E]; [rewrite E in *; lra | lra].
Qed.

Lemma vdot_vdiv_l (u v : vec) (c : R) : vdot (vdiv u c) v = vdot u v / c.
Proof. unfold vdot, vdiv, Rdiv. cbn [vx vy vz]. ring. Qed.

Lemma vdot_vdiv_r (u v : vec) (c : R) : vdot u (vdiv v c) = vdot u v / c.
Proof. unfold vdot, vdiv, Rdiv. cbn [vx vy vz]. ring. Qed.

Lemma normalize_unit_norm (u : vec) :
  0 < vdot u u -> vdot (normalize u) (normalize u) = 1.
Proof.
  intro H. unfold normalize. rewrite vdot_vdiv_l, vdot_vdiv_r.
  pose proof (norm_pos u H). pose proof (norm_sqr u) as Hs.
  rewrite <- Hs. field. lra.
Qed.

Lemma vsub_zero_eq (u v : vec) : vsub u v = vzero -> u = v.
Proof.
  destruct u, v. unfold vsub, vzero. cbn [vx vy vz]. intro H.
  injection H as Hx Hy Hz. f_equal; lra.
Qed.

(** A frame whose first column is [e1 x e2], for a unit [e1] orthogonal to
    [v] and [e2 = normalize(v - (e0 . v) e0)] with [v] non-zero, is
    orthonormal. *)
Lemma converged_frame_orthonormal (e0 e1 v : vec) :
  vdot e1 e1 = 1 -> vdot e1 v = 0 -> 0 < vdot v v ->
  axis_residual e1 v e0 = vzero ->
  gram_defect
    (transpose (mkmat e0 e1 (normalize (vsub v (vscale (vdot e0 v) e0))))) = 0.
Proof.
  intros H11 H1v Hv Hres. unfold axis_residual in Hres. cbv zeta in Hres.
  apply vsub_zero_eq in Hres.
  set (w := vsub v (vscale (vdot e0 v) e0)) in *.
  set (e2 := normalize w) in *.
  assert (H01 : vdot e0 e1 = 0).
  { rewrite Hres. unfold vdot, cross. cbn [vx vy vz]. ring. }
  assert (H02 : vdot e0 e2 = 0).
  { rewrite Hres. unfold vdot, cross. cbn [vx vy vz]. ring. }
  assert (H1w : vdot e1 w = 0).
  { replace (vdot e1 w) with (vdot e1 v - vdot e0 v * vdot e0 e1)
      by (unfold w, vdot, vsub, vscale; cbn [vx vy vz]; ring).
    rewrite H1v, H01. ring. }
  assert (H12 : vdot e1 e2 = 0).
  { unfold e2, normalize. rewrite vdot_vdiv_r, H1w. unfold Rdiv. ring. }
  assert (Hw : 0 < vdot w w).
  { destruct (Req_dec_T (norm w) 0) as [E | E].
    - exfalso.
      assert (He2 : e2 = vzero).
      { unfold e2, normalize, vdiv, vzero. rewrite E. unfold Rdiv.
        rewrite Rinv_0. f_equal; ring. }
      assert (He0 : e0 = vzero).
      { rewrite Hres, He2. unfold cross, vzero. cbn [vx vy vz]. f_equal; ring. }
      pose proof (norm_sqr w) as Hs. rewrite E in Hs.
      assert (Hwv : vdot w w = vdot v v).
      { unfold w. rewrite He0. unfold vdot, vsub, vscale, vzero.
        cbn [vx vy vz]. ring. }
      lra.
    - pose proof (norm_sqr w). pose proof (norm_nonneg w). nra. }
  assert (H22 : vdot e2 e2 = 1) by (apply normalize_unit_norm; exact Hw).
  assert (H00 : vdot e0 e0 = 1).
  { replace (vdot e0 e0)
      with (vdot e1 e1 * vdot e2 e2 - vdot e1 e2 * vdot e1 e2)
      by (rewrite Hres; unfold vdot, cross; cbn [vx vy vz]; ring).
    rewrite H11, H22, H12. ring. }
  apply gram_defect_zero_iff. rewrite gram_of_columns.
  rewrite (vdot_comm e1 e0), (vdot_comm e2 e0), (vdot_comm e2 e1).
  rewrite H00, H01, H02, H11, H12, H22. reflexivity.
Qed.

(** For non-zero perpendicular [u] and [v], [axis(u, v)] is orthonormal as
    soon as the vector returned by the root finder is a zero of the
    residual. *)
Lemma axis_orthonormal_if_perpendicular (slv : Solver) (u v : vec) :
  0 < vdot u u -> 0 < vdot v v -> vdot u v = 0 ->
  axis_residual (normalize u) v (axis_root u v) = vzero ->
  gram_defect (axis u v) = 0.
Proof.
  intros Hu Hv Huv Hres. rewrite axis_unfold.
  apply converged_frame_orthonormal; [| | exact Hv | exact Hres].
  - now apply normalize_unit_norm.
  - unfold normalize. rewrite vdot_vdiv_l, Huv. unfold Rdiv. ring.
Qed.

Lemma normalize_unit (u : vec) : vdot u u = 1 -> normalize u = u.
Proof.
  intro H. unfold normalize, norm. rewrite H, sqrt_1.
  destruct u. unfold vdiv. cbn [vx vy vz]. f_equal; field.
Qed.

Lemma axis_residual_sample :
  axis_residual (normalize (mkvec 0 0 1)) (mkvec 1 0 0) (mkvec 0 1 0) = vzero.
Proof.
  rewrite normalize_unit_z. unfold axis_residual. cbv zeta.
  replace (vsub (mkvec 1 0 0) (vscale (vdot (mkvec 0 1 0) (mkvec 1 0 0)) (mkvec 0 1 0)))
    with (mkvec 1 0 0)
    by (unfold vsub, vscale, vdot; cbn [vx vy vz]; f_equal; ring).
  rewrite normalize_unit by (unfold vdot; cbn [vx vy vz]; ring).
  unfold vsub, cross, vzero. cbn [vx vy vz]. f_equal; ring.
Qed.

Lemma exact_axis_sample_converged :
  axis_residual (normalize (mkvec 0 0 1)) (mkvec 1 0 0)
                (axis_root (slv := exact_solver) (mkvec 0 0 1) (mkvec 1 0 0))
  = vzero.
Proof.
  unfold axis_root. cbn [optimize_root exact_solver].
  apply (epsilon_spec (inhabits _)
           (fun x => axis_residual (normalize (mkvec 0 0 1)) (mkvec 1 0 0) x = vzero)).
  exists (mkvec 0 1 0). exact axis_residual_sample.
Qed.

Lemma axis_orthonormal_if_perpendicular_witness :
  (0 < vdot (mkvec 0 0 1) (mkvec 0 0 1) /\ 0 < vdot (mkvec 1 0 0) (mkvec 1 0 0) /\
   vdot (mkvec 0 0 1) (mkvec 1 0 0) = 0) /\
  gram_defect (axis (slv := exact_solver) (mkvec 0 0 1) (mkvec 1 0 0)) = 0.
Proof.
  assert (H1 : 0 < vdot (mkvec 0 0 1) (mkvec 0 0 1))
    by (unfold vdot; cbn [vx vy vz]; lra).
  assert (H2 : 0 < vdot (mkvec 1 0 0) (mkvec 1 0 0))
    by (unfold vdot; cbn [vx vy vz]; lra).
  assert (H3 : vdot (mkvec 0 0 1) (mkvec 1 0 0) = 0)
    by (unfold vdot; cbn [vx vy vz]; lra).
  split; [auto |].
  exact (axis_orthonormal_if_perpendicular exact_solver _ _ H1 H2 H3
           exact_axis_sample_converged).
Defined.

Lemma axis_orthonormal_only_if_perpendicular_witness :
  gram_defect (axis (slv := exact_solver) (mkvec 0 0 1) (mkvec 1 0 0)) <= 0 /\
  vdot (normalize (mkvec 0 0 1)) (mkvec 1 0 0) = 0.
Proof.
  assert (H : gram_defect (axis (slv := exact_solver) (mkvec 0 0 1) (mkvec 1 0 0)) <= 0).
  { rewrite axis_unfold. apply Req_le.
    apply converged_frame_orthonormal; [| | | exact exact_axis_sample_converged].
    - rewrite normalize_unit_z. unfold vdot. cbn [vx vy vz]. ring.
    - rewrite normalize_unit_z. unfold vdot. cbn [vx vy vz]. ring.
    - unfold vdot. cbn [vx vy vz]. lra. }
  split; [exact H |].
  exact (axis_orthonormal_only_if_perpendicular exact_solver _ _ H).
Defined.

(** ** [axis] and the lengths of its arguments *)

Lemma norm_vscale (c : R) (u : vec) : 0 <= c -> norm (vscale c u) = c * norm u.
Proof.
  intro Hc. unfold norm.
  replace (vdot (vscale c u) (vscale c u)) with (c * c * vdot u u)
    by (unfold vdot, vscale; cbn [vx vy vz]; ring).
  rewrite sqrt_mult by (unfold vdot; nra).
  now rewrite sqrt_square.
Qed.

Lemma normalize_vscale (c : R) (u : vec) :
  0 < c -> normalize (vscale c u) = normalize u.
Proof.
  intro Hc. unfold normalize. rewrite norm_vscale by lra.
  destruct (Req_dec_T (norm u) 0) as [E | E].
  - rewrite E, Rmult_0_r. unfold vdiv, Rdiv. rewrite Rinv_0.
    f_equal; ring.
  - unfold vdiv, vscale. cbn [vx vy vz]. f_equal; field; split; lra.
Qed.

Lemma axis_residual_vscale (c : R) (e1 v : vec) :
  0 < c -> axis_residual e1 (vscale c v) = axis_residual e1 v.
Proof.
  intro Hc. apply functional_extensionality. intro e0. unfold axis_residual.
  cbv zeta.
  replace (vsub (vscale c v) (vscale (vdot e0 (vscale c v)) e0))
    with (vscale c (vsub v (vscale (vdot e0 v) e0)))
    by (unfold vsub, vscale, vdot; cbn [vx vy vz]; f_equal; ring).
  now rewrite normalize_vscale.
Qed.

(** [axis] depends on the directions of its arguments only: scaling either by
    a positive factor changes nothing. *)
Lemma axis_positive_scaling (slv : Solver) (c d : R) (u v : vec) :
  0 < c -> 0 < d -> axis (vscale c u) (vscale d v) = axis u v.
Proof.
  intros Hc Hd. unfold axis. cbv zeta.
  rewrite !normalize_vscale by assumption.
  rewrite axis_residual_vscale by assumption.
  set (e0 := optimize_root _ _).
  replace (vsub (vscale d v) (vscale (vdot e0 (vscale d v)) e0))
    with (vscale d (vsub v (vscale (vdot e0 v) e0)))
    by (unfold vsub, vscale, vdot; cbn [vx vy vz]; f_equal; ring).
  now rewrite normalize_vscale.
Qed.

Lemma axis_positive_scaling_witness :
  (0 < 2 /\ 0 < 5) /\
  axis (slv := exact_solver) (vscale 2 (mkvec 0 0 1)) (vscale 5 (mkvec 3 0 4))
  = axis (slv := exact_solver) (mkvec 0 0 1) (mkvec 3 0 4).
Proof.
  split; [lra |]. apply (axis_positive_scaling exact_solver); lra.
Defined.

(** ** The representative chosen by [bislerp] *)

Lemma dot_cauchy_schwarz (p q : quat) : dot p q * dot p q <= dot p p * dot q q.
Proof.
  destruct p as [a b c d], q as [a' b' c' d']. unfold dot. cbn [qw qx qy qz].
  pose proof (Rle_0_sqr (b * c' - c * b')) as H1.
  pose proof (Rle_0_sqr (b * d' - d * b')) as H2.
  pose proof (Rle_0_sqr (b * a' - a * b')) as H3.
  pose proof (Rle_0_sqr (c * d' - d * c')) as H4.
  pose proof (Rle_0_sqr (c * a' - a * c')) as H5.
  pose proof (Rle_0_sqr (d * a' - a * d')) as H6.
  unfold Rsqr in *. nra.
Qed.

(** The dot products of [qb] with [qa], [qa i], [qa j] and [qa k] are the
    components of the relative rotation: their squares add up to the product
    of the squared norms. *)
Lemma dot_four_squares (qa qb : quat) :
  dot qa qb * dot qa qb
  + dot (qmul qa quat_i) qb * dot (qmul qa quat_i) qb
  + dot (qmul qa quat_j) qb * dot (qmul qa quat_j) qb
  + dot (qmul qa quat_k) qb * dot (qmul qa quat_k) qb
  = dot qa qa * dot qb qb.
Proof.
  destruct qa as [a b c d], qb as [a' b' c' d'].
  unfold dot, qmul, quat_i, quat_j, quat_k. cbn [qw qx qy qz]. ring.
Qed.

Lemma Rabs_sqr_le (x m : R) : Rabs x <= m -> x * x <= m * m.
Proof.
  intro H. pose proof (Rabs_pos x).
  unfold Rabs in *. destruct (Rcase_abs x); nra.
Qed.

(** For frames that are converted to unit quaternions, the largest absolute
    dot product over the eight representatives lies between [1/2] and [1]:
    the representative that is interpolated is never more than 120 degrees
    away from [Qb]. *)
Lemma max_dot_range (qlib : QuaternionLib) (Qa Qb : mat) :
  qunit (from_rotation_matrix Qa) -> qunit (from_rotation_matrix Qb) ->
  1 / 2 <= max_dot Qa Qb <= 1.
Proof.
  intros Ha Hb. unfold qunit in Ha, Hb.
  set (qa := from_rotation_matrix Qa) in *.
  set (qb := from_rotation_matrix Qb) in *.
  split.
  - assert (Hin : forall x, In x (dot_arr qa qb) -> x <= max_dot Qa Qb)
      by (intros x Hx; now apply max_dot_bounds).
    unfold dot_arr, quat_array in Hin. cbn [map In] in Hin.
    pose proof (Hin _ (or_introl eq_refl)) as H0.
    pose proof (Hin _ (or_intror (or_intror (or_introl eq_refl)))) as H2.
    pose proof (Hin _ (or_intror (or_intror (or_intror (or_intror
                         (or_introl eq_refl)))))) as H4.
    pose proof (Hin _ (or_intror (or_intror (or_intror (or_intror (or_intror
                         (or_intror (or_introl eq_refl)))))))) as H6.
    apply Rabs_sqr_le in H0, H2, H4, H6.
    pose proof (dot_four_squares qa qb) as Hsum. rewrite Ha, Hb in Hsum.
    assert (Hpos : 0 <= max_dot Qa Qb).
    { eapply Rle_trans; [apply Rabs_pos |]. apply Hin. left. reflexivity. }
    nra.
  - unfold max_dot. fold qa qb.
    destruct (argmax_max (dot_arr qa qb)) as [Hidx _]; [discriminate |].
    rewrite dot_arr_length in Hidx.
    rewrite dot_arr_nth by exact Hidx.
    set (qm := nth (argmax (dot_arr qa qb)) (quat_array qa) qa).
    assert (Hqm : qunit qm).
    { apply Forall_nth; [now apply quat_array_unit | exact Hidx]. }
    pose proof (dot_cauchy_schwarz qm qb) as Hcs.
    unfold qunit in Hqm. rewrite Hqm, Hb in Hcs.
    unfold Rabs. destruct (Rcase_abs (dot qm qb)); nra.
Qed.

Lemma max_dot_range_witness :
  (qunit (from_rotation_matrix (QuaternionLib := exact_quaternion)
            (rot_of (mkquat 1 0 0 0))) /\
   qunit (from_rotation_matrix (QuaternionLib := exact_quaternion)
            (rot_of quat_sample))) /\
  1 / 2 <= max_dot (qlib := exact_quaternion) (rot_of (mkquat 1 0 0 0))
                   (rot_of quat_sample) <= 1.
Proof.
  destruct (exact_from_rotation_matrix_spec _ qunit_one) as [Ha _].
  destruct (exact_from_rotation_matrix_spec _ qunit_quat_sample) as [Hb _].
  split; [split; assumption |].
  apply (max_dot_range exact_quaternion _ _ Ha Hb).
Defined.

(** ** The bounds enforced on the Laplace solutions *)

Lemma enforce_bounds_clamp (eps : R) (v : list R) :
  eps <= 1 / 2 ->
  enforce_bounds eps v = map (fun x => Rmax eps (Rmin x (1 - eps))) v.
Proof.
  intro He. unfold enforce_bounds. cbv zeta. rewrite map_map.
  apply map_ext. intro x.
  unfold Rgtb, Rltb, Rmax, Rmin.
  destruct (Rlt_dec x eps); cbv iota;
    match goal with
    | |- context [Rlt_dec ?a ?b] => destruct (Rlt_dec a b); cbv iota
    end;
    destruct (Rle_dec x (1 - eps)); cbv iota;
    match goal with
    | |- context [Rle_dec ?a ?b] => destruct (Rle_dec a b); cbv iota
    end; lra.
Qed.

(** With [DOLFIN_EPS <= 1/2], every entry ends in
    [[DOLFIN_EPS, 1 - DOLFIN_EPS]], the entries already there are kept, and
    the vector keeps its length. *)
Lemma enforce_bounds_range (eps : R) (v : list R) :
  eps <= 1 / 2 ->
  length (enforce_bounds eps v) = length v /\
  Forall (fun x => eps <= x <= 1 - eps) (enforce_bounds eps v) /\
  (Forall (fun x => eps <= x <= 1 - eps) v -> enforce_bounds eps v = v).
Proof.
  intro He. rewrite enforce_bounds_clamp by exact He.
  split; [apply length_map | split].
  - apply Forall_forall. intros y Hy. apply in_map_iff in Hy as (x & <- & _).
    unfold Rmax, Rmin. destruct (Rle_dec x (1 - eps)), (Rle_dec eps _); lra.
  - intro H. rewrite <- (map_id v) at 2. apply map_ext_in. intros x Hx.
    rewrite Forall_forall in H. specialize (H x Hx).
    unfold Rmax, Rmin. destruct (Rle_dec x (1 - eps)), (Rle_dec eps _); lra.
Qed.

Lemma enforce_bounds_range_witness :
  3e-16 <= 1 / 2 /\
  Forall (fun x => 3e-16 <= x <= 1 - 3e-16) (enforce_bounds 3e-16 [-1; 0.5; 2]).
Proof.
  split; [lra |]. apply (enforce_bounds_range 3e-16 [-1; 0.5; 2]). lra.
Defined.

(** Without the bound on [DOLFIN_EPS] the second assignment undoes the first. *)
Lemma enforce_bounds_large_eps : enforce_bounds 1 [0] = [1 - 1].
Proof.
  unfold enforce_bounds. cbn [map].
  rewrite (proj2 (Rltb_true 0 1)) by lra.
  rewrite (proj2 (Rgtb_true 1 (1 - 1))) by lra. reflexivity.
Qed.

(** On scalars taken from solutions with enforced bounds, the depth of
    [system_at_dof] is computed without a division by zero, whatever the
    tolerance, and lies strictly between 0 and 1. *)
Lemma depth_on_bounded_solutions (eps : R) (lv_solution rv_solution : list R)
      (lv rv tol : R) :
  0 < eps -> eps <= 1 / 2 ->
  In lv (enforce_bounds eps lv_solution) ->
  In rv (enforce_bounds eps rv_solution) ->
  exists d, depth_at lv rv tol = Ok d /\ 0 < d < 1.
Proof.
  intros H0 He Hlv Hrv.
  rewrite enforce_bounds_clamp in Hlv, Hrv by exact He.
  apply in_map_iff in Hlv as (x & <- & _). apply in_map_iff in Hrv as (y & <- & _).
  pose proof (Rmax_l eps (Rmin x (1 - eps))) as Hx.
  pose proof (Rmax_l eps (Rmin y (1 - eps))) as Hy.
  set (l := Rmax eps (Rmin x (1 - eps))) in *.
  set (r := Rmax eps (Rmin y (1 - eps))) in *.
  unfold depth_at, py_truediv.
  destruct (Rltb (l + r) tol); [exists 0.5; split; [reflexivity | lra] |].
  destruct (Req_dec_T (l + r) 0) as [E | _]; [lra |].
  exists (r / (l + r)). split; [reflexivity |].
  assert (Hp : 0 < l + r) by lra.
  split.
  - apply Rdiv_lt_0_compat; lra.
  - apply Rmult_lt_reg_r with (l + r); [exact Hp |].
    unfold Rdiv. rewrite Rmult_assoc, Rinv_l by lra. lra.
Qed.

(** ** The boundary markers *)

Module MarkersFacts.

Import Stdlib.Strings.String.
Import Markers.
Local Open Scope string_scope.
Local Open Scope Z_scope.

(** [k] consecutive integers that all occur in [vals] are at most as many as
    the entries of [vals]. *)
Lemma occupied_bound (vals : list Z) (v0 : Z) (k : nat) :
  (forall z, v0 <= z < v0 + Z.of_nat k -> In z vals) ->
  (k <= List.length vals)%nat.
Proof.
  intro H.
  set (l := map (fun i => v0 + Z.of_nat i) (seq 0 k)).
  assert (Hl : List.length l = k) by (unfold l; now rewrite length_map, length_seq).
  rewrite <- Hl. apply NoDup_incl_length.
  - unfold l. apply Finite.Injective_map_NoDup; [| apply seq_NoDup].
    intros i j Hij. lia.
  - intros z Hz. unfold l in Hz. apply in_map_iff in Hz as (i & <- & Hi).
    apply in_seq in Hi. apply H. lia.
Qed.

Lemma free_marker_spec (fuel : nat) (vals : list Z) (v0 : Z) (k : nat) :
  (forall z, v0 <= z < v0 + Z.of_nat k -> In z vals) ->
  (List.length vals < fuel + k)%nat ->
  exists r,
    free_marker fuel vals (v0 + Z.of_nat k) = Some r /\
    v0 + Z.of_nat k <= r <= v0 + Z.of_nat (List.length vals) /\
    ~ In r vals /\
    (forall z, v0 <= z < r -> In z vals).
Proof.
  revert k. induction fuel as [| fuel IH]; intros k Hocc Hlen.
  - apply occupied_bound in Hocc. lia.
  - cbn [free_marker].
    destruct (existsb (Z.eqb (v0 + Z.of_nat k)) vals) eqn:E.
    + apply existsb_exists in E as (z & Hz & Ez). apply Z.eqb_eq in Ez. subst z.
      destruct (IH (S k)) as (r & Hr & Hb & Hnot & Hleast).
      * intros z Hz'. destruct (Z.eq_dec z (v0 + Z.of_nat k)) as [-> | Hne];
          [exact Hz | apply Hocc; lia].
      * lia.
      * exists r. replace (v0 + Z.of_nat k + 1) with (v0 + Z.of_nat (S k)) by lia.
        repeat split; try assumption; lia.
    + exists (v0 + Z.of_nat k). pose proof (occupied_bound vals v0 k Hocc).
      repeat split; try lia; try exact Hocc.
      intro Hin. assert (existsb (Z.eqb (v0 + Z.of_nat k)) vals = true).
      { apply existsb_exists. exists (v0 + Z.of_nat k). split; [exact Hin |].
        apply Z.eqb_refl. }
      congruence.
Qed.

Lemma lookup_app_absent (key : string) (m m' : dict) :
  has_key key m = false -> lookup key (m ++ m')%list = lookup key m'.
Proof.
  unfold has_key, lookup. induction m as [| kv m IH]; [reflexivity |].
  cbn [existsb app find]. destruct (String.eqb (fst kv) key); [discriminate |].
  exact IH.
Qed.

Lemma lookup_app_present (key : string) (m m' : dict) :
  has_key key m = true -> lookup key (m ++ m')%list = lookup key m.
Proof.
  unfold has_key, lookup. induction m as [| kv m IH]; [discriminate |].
  cbn [existsb app find]. destruct (String.eqb (fst kv) key); [reflexivity |].
  exact IH.
Qed.

(** Markers given with the three required names and no ["rv"]: the loop ends
    within one test more than there are markers, and the marker added for
    ["rv"] is the least integer from 20 on that no given marker uses; the
    given entries are kept. *)
Lemma resolve_adds_unused_rv (fuel : nat) (default_markers m : dict) :
  has_key "base" m = true -> has_key "lv" m = true -> has_key "epi" m = true ->
  has_key "rv" m = false -> (List.length m < fuel)%nat ->
  exists rv_value,
    resolve fuel default_markers (Some m)
    = Resolved (m ++ [("rv", rv_value)])%list /\
    20 <= rv_value <= 20 + Z.of_nat (List.length m) /\
    ~ In rv_value (values m) /\
    (forall z, 20 <= z < rv_value -> In z (values m)) /\
    lookup "rv" (m ++ [("rv", rv_value)])%list = Some rv_value /\
    (forall key, has_key key m = true ->
                 lookup key (m ++ [("rv", rv_value)])%list = lookup key m).
Proof.
  intros Hb Hl He Hr Hfuel.
  destruct (free_marker_spec fuel (values m) 20 0) as (r & Hfree & Hrange & Hnot & Hleast).
  - intros z Hz. lia.
  - unfold values. rewrite length_map. lia.
  - exists r. unfold resolve. rewrite Hb, Hl, He, Hr. cbn [negb].
    replace (20 + Z.of_nat 0) with 20 in Hfree, Hrange by lia.
    rewrite Hfree. unfold values in Hrange. rewrite length_map in Hrange.
    repeat split; try assumption; try lia.
    + rewrite lookup_app_absent by exact Hr. reflexivity.
    + intros key Hk. now apply lookup_app_present.
Qed.

Lemma resolve_adds_unused_rv_witness :
  exists rv_value,
    resolve 4 [] (Some sample) = Resolved (sample ++ [("rv", rv_value)])%list /\
    20 <= rv_value <= 20 + Z.of_nat (List.length sample) /\
    ~ In rv_value (values sample) /\
    (forall z, 20 <= z < rv_value -> In z (values sample)) /\
    lookup "rv" (sample ++ [("rv", rv_value)])%list = Some rv_value /\
    (forall key, has_key key sample = true ->
                 lookup key (sample ++ [("rv", rv_value)])%list = lookup key sample).
Proof.
  apply (resolve_adds_unused_rv 4 [] sample); try reflexivity. simpl. lia.
Defined.

End MarkersFacts.

(** ** Sample runs *)

Lemma compute_output_lengths_witness :
  compute_fiber_sheet_system (slv := exact_solver) (qlib := exact_quaternion)
    (one_point 0) default_angle_args = Ok zero_system /\
  length (fiber zero_system) = length (lv_gradient (one_point 0)) /\
  length (sheet zero_system) = length (lv_gradient (one_point 0)) /\
  length (sheet_normal zero_system) = length (lv_gradient (one_point 0)).
Proof.
  assert (H : compute_fiber_sheet_system (slv := exact_solver)
                (qlib := exact_quaternion) (one_point 0) default_angle_args
              = Ok zero_system).
  { unfold compute_fiber_sheet_system, dofs_of.
    cbn [one_point dofs lv_scalar length].
    change (standard_dofs 1) with (Ok [(0, 1, 2, 0)%nat]).
    cbn [bind for_each].
    rewrite below_tolerance_skips by exact one_point_below_tolerance.
    reflexivity. }
  split; [exact H |].
  exact (compute_output_lengths (slv := exact_solver) (qlib := exact_quaternion)
           (one_point 0) default_angle_args zero_system H).
Defined.

Lemma one_point_rv_in_range (lv rv epi : R) (d : dof) :
  In d [(0, 1, 2, 0)%nat] -> in_range (one_point_rv lv rv epi) d.
Proof.
  intros [<- | []]. unfold in_range. cbn. repeat split; try lia;
    destruct H as [-> | [-> | ->]]; lia.
Qed.

Lemma in_range_dofs_no_index_error_witness :
  dofs_of (one_point_rv (1 / 2) (1 / 2) 0) = Ok [(0, 1, 2, 0)%nat] /\
  compute_fiber_sheet_system (slv := exact_solver) (qlib := exact_quaternion)
    (one_point_rv (1 / 2) (1 / 2) 0) default_angle_args <> Raise IndexError.
Proof.
  split; [reflexivity |].
  exact (in_range_dofs_no_index_error (slv := exact_solver)
           (qlib := exact_quaternion)
           (one_point_rv (1 / 2) (1 / 2) 0) default_angle_args [(0, 1, 2, 0)%nat]
           eq_refl (one_point_rv_in_range (1 / 2) (1 / 2) 0)).
Defined.

Lemma compute_no_points_raises_witness :
  lv_scalar no_points = [] /\ dofs no_points = None /\
  compute_fiber_sheet_system (slv := exact_solver) (qlib := exact_quaternion)
    no_points default_angle_args = Raise ZeroDivisionError.
Proof.
  split; [reflexivity |]. split; [reflexivity |].
  exact (compute_no_points_raises (slv := exact_solver) (qlib := exact_quaternion)
           no_points default_angle_args eq_refl eq_refl).
Defined.

Lemma store_frame_columns_witness :
  store_frame zero_system 0 1 2 (Some half_turn_x)
  = Ok {| fiber := [1; 0; 0]; sheet := [0; -1; 0]; sheet_normal := [0; 0; -1] |} /\
  getitem3 [1; 0; 0] 0 1 2 = Ok (col0 half_turn_x) /\
  getitem3 [0; -1; 0] 0 1 2 = Ok (col1 half_turn_x) /\
  getitem3 [0; 0; -1] 0 1 2 = Ok (col2 half_turn_x).
Proof.
  split; [reflexivity |].
  apply (store_frame_columns zero_system
           {| fiber := [1; 0; 0]; sheet := [0; -1; 0]; sheet_normal := [0; 0; -1] |}
           0 1 2 half_turn_x eq_refl); lia.
Defined.

Lemma compute_without_rv_uses_lv_angles_witness :
  rv_scalar (one_point 1) = None /\
  compute_fiber_sheet_system (slv := exact_solver) (qlib := exact_quaternion)
    (one_point 1) default_angle_args
  = compute_fiber_sheet_system (slv := exact_solver) (qlib := exact_quaternion)
      (one_point 1) (set_angle AlphaEndoRv (Some 10) default_angle_args).
Proof.
  split; [reflexivity |].
  exact (compute_without_rv_uses_lv_angles (slv := exact_solver)
           (qlib := exact_quaternion) (one_point 1) default_angle_args
           (set_angle AlphaEndoRv (Some 10) default_angle_args)
           eq_refl eq_refl eq_refl eq_refl eq_refl).
Defined.

Lemma enforce_bounds_sample : enforce_bounds 3e-16 [0] = [3e-16].
Proof.
  unfold enforce_bounds. cbn [map].
  rewrite (proj2 (Rltb_true 0 3e-16)) by lra.
  rewrite (proj2 (Rgtb_false 3e-16 (1 - 3e-16))) by lra.
  reflexivity.
Qed.

Lemma depth_on_bounded_solutions_witness :
  (0 < 3e-16 /\ 3e-16 <= 1 / 2 /\ In 3e-16 (enforce_bounds 3e-16 [0])) /\
  exists d, depth_at 3e-16 3e-16 0 = Ok d /\ 0 < d < 1.
Proof.
  assert (H0 : 0 < 3e-16) by lra.
  assert (H1 : 3e-16 <= 1 / 2) by lra.
  assert (H2 : In 3e-16 (enforce_bounds 3e-16 [0]))
    by (rewrite enforce_bounds_sample; left; reflexivity).
  split; [auto |].
  exact (depth_on_bounded_solutions 3e-16 [0] [0] 3e-16 3e-16 0 H0 H1 H2 H2).
Defined.
